(** * Scroll-triggered animations of the landing page (script.js)

    A shallow embedding of the page script: the element objects it mutates
    live in a store indexed by reference, the handlers are state-passing
    functions that may throw, and the browser facilities the script calls
    (selectors, the intersection observer's registration set, timers) are
    modelled next to them.  [initParallaxEffect] is never called by the
    script and is left out. *)

From Stdlib Require Import ZArith Floats.PrimFloat Numbers.Cyclic.Int63.Uint63.
From stdpp Require Import gmap strings list functions sorting.

#[local] Set Warnings "-inexact-float,-clear-no-such-hyp".
#[local] Open Scope string_scope.
#[local] Open Scope nat_scope.
#[local] Open Scope list_scope.

(** ** JavaScript values used by the script *)

(** A reference to an element object.  Two references are the same object
    exactly when they are equal, which is what [Array.prototype.indexOf]
    compares. *)
Definition ref := nat.

(** An integer-valued JS number (an array index, or -1) as a binary64; the
    conversion is exact for every index an array can have. *)
Definition js_number (z : Z) : float :=
  if (z <? 0)%Z then PrimFloat.opp (PrimFloat.of_uint63 (Uint63.of_Z (- z)))
  else PrimFloat.of_uint63 (Uint63.of_Z z).

(** The text assigned to an inline style property: either a string literal
    of the script, or the template literal [`${x}s`] of a number [x]
    followed by a unit. *)
Inductive CssText : Type :=
  | Lit (s : string)
  | NumUnit (x : float) (unit : string).

(** [Array.prototype.indexOf] on an array of element references: the first
    position holding the reference, or -1. *)
Fixpoint indexOf_from (items : list ref) (element : ref) (i : Z) : Z :=
  match items with
  | [] => (-1)%Z
  | x :: rest => if decide (x = element) then i else indexOf_from rest element (i + 1)%Z
  end.

Definition indexOf (items : list ref) (element : ref) : Z :=
  indexOf_from items element 0%Z.

(** ** Element objects *)

Record Style : Type := mkStyle {
  transitionDelay : CssText;
  transform : CssText;
  boxShadow : CssText;
  opacity : CssText;
  display : CssText
}.

Record Element : Type := mkElement {
  tagName : string;
  idAttr : string;
  hrefAttr : option string;
  classList : list string;
  style : Style;
  parentElement : option ref;
  children : list ref
}.

Definition with_classList (cl : list string) (e : Element) : Element :=
  mkElement (tagName e) (idAttr e) (hrefAttr e) cl (style e) (parentElement e) (children e).

Definition with_style (st : Style) (e : Element) : Element :=
  mkElement (tagName e) (idAttr e) (hrefAttr e) (classList e) st (parentElement e) (children e).

Definition set_transitionDelay (v : CssText) (st : Style) : Style :=
  mkStyle v (transform st) (boxShadow st) (opacity st) (display st).

Definition set_transform (v : CssText) (st : Style) : Style :=
  mkStyle (transitionDelay st) v (boxShadow st) (opacity st) (display st).

Definition set_boxShadow (v : CssText) (st : Style) : Style :=
  mkStyle (transitionDelay st) (transform st) v (opacity st) (display st).

Definition set_opacity (v : CssText) (st : Style) : Style :=
  mkStyle (transitionDelay st) (transform st) (boxShadow st) v (display st).

Definition set_display (v : CssText) (st : Style) : Style :=
  mkStyle (transitionDelay st) (transform st) (boxShadow st) (opacity st) v.

(** [DOMTokenList.contains] and [DOMTokenList.add]: the token list is an
    ordered set, adding a token already present changes nothing. *)
Definition tokens_contains (cl : list string) (tok : string) : bool :=
  bool_decide (tok ∈ cl).

Definition tokens_add (cl : list string) (tok : string) : list string :=
  if tokens_contains cl tok then cl else cl ++ [tok].

(** ** The page *)

(** Closures handed to [setTimeout], one constructor per arrow function of
    the script. *)
Inductive Callback : Type :=
  | HeroReveal (heroContent : ref)
  | LoaderHide (loader : ref)
  | ThrottleLater (args : nat).

Record Timer : Type := mkTimer {
  timerId : nat;
  due : nat;
  callback : Callback
}.

#[global] Instance Callback_eq_dec : EqDecision Callback.
Proof. solve_decision. Defined.

#[global] Instance Timer_eq_dec : EqDecision Timer.
Proof. solve_decision. Defined.

(** What a handler does to the outside of the element store. *)
Inductive Effect : Type :=
  | PreventDefault
  | ScrollIntoView (target : ref) (behavior block : string)
  | ConsoleLog (msg : string).

Inductive ListenerKind : Type := OnClick | OnMouseEnter | OnMouseLeave.

Record Page : Type := mkPage {
  store : ref → Element;
  docElements : list ref;
  docBody : option ref;
  observed : gset ref;
  listeners : list (ref * ListenerKind);
  clock : nat;
  timers : list Timer;
  nextTimerId : nat;
  timeout : option nat;
  resizeCalls : list (nat * nat);
  effects : list Effect
}.

Definition with_store (f : ref → Element) (p : Page) : Page :=
  mkPage f (docElements p) (docBody p) (observed p) (listeners p) (clock p)
         (timers p) (nextTimerId p) (timeout p) (resizeCalls p) (effects p).

Definition with_observed (o : gset ref) (p : Page) : Page :=
  mkPage (store p) (docElements p) (docBody p) o (listeners p) (clock p)
         (timers p) (nextTimerId p) (timeout p) (resizeCalls p) (effects p).

Definition with_listeners (l : list (ref * ListenerKind)) (p : Page) : Page :=
  mkPage (store p) (docElements p) (docBody p) (observed p) l (clock p)
         (timers p) (nextTimerId p) (timeout p) (resizeCalls p) (effects p).

Definition with_clock (c : nat) (p : Page) : Page :=
  mkPage (store p) (docElements p) (docBody p) (observed p) (listeners p) c
         (timers p) (nextTimerId p) (timeout p) (resizeCalls p) (effects p).

Definition with_timers (ts : list Timer) (p : Page) : Page :=
  mkPage (store p) (docElements p) (docBody p) (observed p) (listeners p) (clock p)
         ts (nextTimerId p) (timeout p) (resizeCalls p) (effects p).

Definition with_nextTimerId (n : nat) (p : Page) : Page :=
  mkPage (store p) (docElements p) (docBody p) (observed p) (listeners p) (clock p)
         (timers p) n (timeout p) (resizeCalls p) (effects p).

Definition with_timeout (t : option nat) (p : Page) : Page :=
  mkPage (store p) (docElements p) (docBody p) (observed p) (listeners p) (clock p)
         (timers p) (nextTimerId p) t (resizeCalls p) (effects p).

Definition with_resizeCalls (c : list (nat * nat)) (p : Page) : Page :=
  mkPage (store p) (docElements p) (docBody p) (observed p) (listeners p) (clock p)
         (timers p) (nextTimerId p) (timeout p) c (effects p).

Definition with_effects (e : list Effect) (p : Page) : Page :=
  mkPage (store p) (docElements p) (docBody p) (observed p) (listeners p) (clock p)
         (timers p) (nextTimerId p) (timeout p) (resizeCalls p) e.

(** ** Handlers: state passing with exceptions

    A handler that throws keeps the mutations it made before the throw. *)

Inductive Outcome (A : Type) : Type :=
  | Done (a : A)
  | Thrown (err : string).
Arguments Done {A} a.
Arguments Thrown {A} err.

Definition JS (A : Type) : Type := Page → Outcome A * Page.

Definition ret {A} (a : A) : JS A := λ p, (Done a, p).

Definition throw {A} (err : string) : JS A := λ p, (Thrown err, p).

Definition bind {A B} (m : JS A) (k : A → JS B) : JS B :=
  λ p, match m p with
       | (Done a, p') => k a p'
       | (Thrown err, p') => (Thrown err, p')
       end.

Notation "'let*' x ':=' m 'in' k" := (bind m (λ x, k))
  (at level 10, x name, m at level 100, k at level 200).
Notation "m ;;; k" := (bind m (λ _, k))
  (at level 90, right associativity).

Definition gets {A} (f : Page → A) : JS A := λ p, (Done (f p), p).

Definition modify (f : Page → Page) : JS unit := λ p, (Done tt, f p).

(** [Array.prototype.forEach] and [NodeList.prototype.forEach], with the
    index passed to the callback; a throwing callback ends the loop. *)
Fixpoint forEach_from {A} (i : Z) (xs : list A) (f : A → Z → JS unit) : JS unit :=
  match xs with
  | [] => ret tt
  | x :: rest => f x i ;;; forEach_from (i + 1)%Z rest f
  end.

Definition forEachi {A} (xs : list A) (f : A → Z → JS unit) : JS unit :=
  forEach_from 0%Z xs f.

Definition forEach {A} (xs : list A) (f : A → JS unit) : JS unit :=
  forEachi xs (λ x _, f x).

Definition exec {A} (m : JS A) (p : Page) : Page := snd (m p).

(** ** DOM operations the script calls *)

Definition alterElement (r : ref) (f : Element → Element) : JS unit :=
  modify (λ p, with_store (alter f r (store p)) p).

Definition classList_add (r : ref) (tok : string) : JS unit :=
  alterElement r (λ e, with_classList (tokens_add (classList e) tok) e).

Definition classList_contains (r : ref) (tok : string) : JS bool :=
  gets (λ p, tokens_contains (classList (store p r)) tok).

Definition setStyle (r : ref) (f : Style → Style) : JS unit :=
  alterElement r (λ e, with_style (f (style e)) e).

Definition hasClass (p : Page) (tok : string) (r : ref) : bool :=
  tokens_contains (classList (store p r)) tok.

(** [document.querySelectorAll] for a class selector (or a selector list of
    class selectors): the matching elements of the document, in tree order. *)
Definition matching (classes : list string) (p : Page) : list ref :=
  filter (λ r, Is_true (existsb (λ c, hasClass p c r) classes)) (docElements p).

Definition querySelectorAll (classes : list string) : JS (list ref) :=
  gets (matching classes).

(** [document.querySelector] for a class selector: the first match, or null. *)
Definition firstMatch (cls : string) (p : Page) : option ref :=
  head (filter (λ r, Is_true (hasClass p cls r)) (docElements p)).

Definition querySelector (cls : string) : JS (option ref) :=
  gets (firstMatch cls).

(** [IntersectionObserver.prototype.observe] and [unobserve] of the one
    observer instance of the script. *)
Definition observe (r : ref) : JS unit :=
  modify (λ p, with_observed ({[ r ]} ∪ observed p) p).

Definition unobserve (r : ref) : JS unit :=
  modify (λ p, with_observed (observed p ∖ {[ r ]}) p).

(** ** The intersection callback *)

Record Entry : Type := mkEntry {
  target : ref;
  isIntersecting : bool
}.

(** [addStaggeredAnimation]: reading [children] of a null [parentElement]
    is a TypeError. *)
Definition addStaggeredAnimation (element : ref) : JS unit :=
  let* parentList := gets (λ p, parentElement (store p element)) in
  match parentList with
  | None => throw "TypeError"
  | Some parent =>
      let* items := gets (λ p, children (store p parent)) in
      let index := indexOf items element in
      setStyle element
        (set_transitionDelay (NumUnit (PrimFloat.mul (js_number index) 0.2%float) "s"))
  end.

Definition handleEntry (entry : Entry) : JS unit :=
  if isIntersecting entry then
    classList_add (target entry) "animate" ;;;
    (let* isProblem := classList_contains (target entry) "problem-item" in
     let* isSolution := classList_contains (target entry) "solution-item" in
     if isProblem || isSolution
     then addStaggeredAnimation (target entry)
     else ret tt) ;;;
    unobserve (target entry)
  else ret tt.

Definition handleIntersection (entries : list Entry) : JS unit :=
  forEach entries handleEntry.

(** The animated flag of an element: membership of the [animate] class. *)
Definition animated (p : Page) (r : ref) : bool :=
  hasClass p "animate" r.

Definition isListItem (p : Page) (r : ref) : bool :=
  hasClass p "problem-item" r || hasClass p "solution-item" r.

(** ** Timers *)

(** [setTimeout]: a fresh identifier, due [wait] milliseconds from now. *)
Definition setTimeout (cb : Callback) (wait : nat) : JS nat :=
  λ p, let id := nextTimerId p in
       (Done id,
        with_nextTimerId (S id)
          (with_timers (timers p ++ [mkTimer id (clock p + wait) cb]) p)).

(** [clearTimeout]: cancels the timer if it is still pending; an undefined
    or stale identifier is ignored. *)
Definition clearTimeout (id : option nat) : JS unit :=
  modify (λ p, match id with
               | None => p
               | Some i => with_timers (filter (λ t, timerId t ≠ i) (timers p)) p
               end).

Definition emit (e : Effect) : JS unit :=
  modify (λ p, with_effects (effects p ++ [e]) p).

Definition addEventListener (r : ref) (kind : ListenerKind) : JS unit :=
  modify (λ p, with_listeners (listeners p ++ [(r, kind)]) p).

(** ** Initialisation functions *)

Definition initHeroAnimation : JS unit :=
  let* heroContent := querySelector "hero-content" in
  match heroContent with
  | Some h => let* _ := setTimeout (HeroReveal h) 300 in ret tt
  | None => ret tt
  end.

Definition initServiceBlocksAnimation : JS unit :=
  let* serviceBlocks := querySelectorAll ["service-block"] in
  forEachi serviceBlocks (λ block index,
    setStyle block
      (set_transitionDelay (NumUnit (PrimFloat.mul (js_number index) 0.2%float) "s")) ;;;
    observe block).

Definition initListItemsAnimation : JS unit :=
  let* problemItems := querySelectorAll ["problem-item"] in
  let* solutionItems := querySelectorAll ["solution-item"] in
  forEach problemItems observe ;;;
  forEach solutionItems observe.

Definition initGeneralSectionAnimations : JS unit :=
  let* animatedElements :=
    querySelectorAll ["mission-content"; "contact-content"; "pulse-animation"] in
  forEach animatedElements observe.

(** The selector [a[href^="#"]]. *)
Definition isHashLink (e : Element) : bool :=
  bool_decide (tagName e = "a") &&
  match hrefAttr e with
  | Some h => String.prefix "#" h
  | None => false
  end.

Definition queryHashLinks : JS (list ref) :=
  gets (λ p, filter (λ r, Is_true (isHashLink (store p r))) (docElements p)).

(** [String.prototype.substring(1)]. *)
Definition substring1 (s : string) : string :=
  match s with
  | EmptyString => EmptyString
  | String _ rest => rest
  end.

(** [document.getElementById]: the first element in tree order whose id is
    the given one; the empty string is the id of no element. *)
Definition getElementById (id : string) : JS (option ref) :=
  gets (λ p, if decide (id = "") then None
             else head (filter (λ r, idAttr (store p r) = id) (docElements p))).

(** The click listener of [initSmoothScrolling]; [this] is the link. *)
Definition anchorClick (this : ref) : JS unit :=
  emit PreventDefault ;;;
  let* href := gets (λ p, hrefAttr (store p this)) in
  match href with
  | None => throw "TypeError"
  | Some h =>
      let targetId := substring1 h in
      let* targetElement := getElementById targetId in
      match targetElement with
      | Some t => emit (ScrollIntoView t "smooth" "start")
      | None => ret tt
      end
  end.

Definition initSmoothScrolling : JS unit :=
  let* links := queryHashLinks in
  forEach links (λ link, addEventListener link OnClick).

(** The two hover listeners of [initHoverEffects]. *)
Definition onMouseEnter (this : ref) : JS unit :=
  setStyle this (set_transform (Lit "translateY(-5px)")) ;;;
  setStyle this (set_boxShadow (Lit "0 10px 30px rgba(0, 0, 0, 0.1)")).

Definition onMouseLeave (this : ref) : JS unit :=
  setStyle this (set_transform (Lit "translateY(0)")) ;;;
  setStyle this (set_boxShadow (Lit "none")).

Definition initHoverEffects : JS unit :=
  let* serviceBlocks := querySelectorAll ["service-block"] in
  forEach serviceBlocks (λ block,
    addEventListener block OnMouseEnter ;;;
    addEventListener block OnMouseLeave).

(** ** throttle *)

(** The action wrapped for the resize listener has an empty body; each call
    is recorded with the time it happens at and the argument it gets. *)
Definition resizeAction (args : nat) : JS unit :=
  modify (λ p, with_resizeCalls (resizeCalls p ++ [(clock p, args)]) p).

(** [later], the closure scheduled by [executedFunction]. *)
Definition later (func : nat → JS unit) (args : nat) : JS unit :=
  (let* t := gets timeout in clearTimeout t) ;;;
  func args.

(** [executedFunction], the function [throttle(func, wait)] returns; the
    closure variable is the [timeout] field of the page. *)
Definition executedFunction (wait : nat) (args : nat) : JS unit :=
  (let* t := gets timeout in clearTimeout t) ;;;
  let* id := setTimeout (ThrottleLater args) wait in
  modify (with_timeout (Some id)).

(** [throttle(func, wait)]: the script calls it once, for the resize
    listener, so [func] is [resizeAction] and the closure [later] it
    schedules is the callback [ThrottleLater]. *)
Definition throttle (wait : nat) : nat → JS unit :=
  executedFunction wait.

(** The resize listener, [throttle(() => {}, 250)]; the argument is the
    event. *)
Definition onResize (ev : nat) : JS unit :=
  throttle 250 ev.

(** ** Top-level listeners *)

Definition onDOMContentLoaded : JS unit :=
  initHeroAnimation ;;;
  initServiceBlocksAnimation ;;;
  initListItemsAnimation ;;;
  initGeneralSectionAnimations ;;;
  initSmoothScrolling ;;;
  initHoverEffects ;;;
  emit (ConsoleLog "AI Automation Agency website animations initialized successfully!").

Definition onLoad : JS unit :=
  let* body := gets docBody in
  match body with
  | None => throw "TypeError"
  | Some b =>
      classList_add b "loaded" ;;;
      let* loader := querySelector "loader" in
      match loader with
      | Some l =>
          setStyle l (set_opacity (Lit "0")) ;;;
          let* _ := setTimeout (LoaderHide l) 300 in
          ret tt
      | None => ret tt
      end
  end.

(** ** The timer loop *)

Definition runCallback (cb : Callback) : JS unit :=
  match cb with
  | HeroReveal heroContent => classList_add heroContent "animate"
  | LoaderHide loader => setStyle loader (set_display (Lit "none"))
  | ThrottleLater args => later resizeAction args
  end.

(** The pending timer that is due first (the oldest one among equals). *)
Fixpoint earliest (ts : list Timer) : option Timer :=
  match ts with
  | [] => None
  | t :: rest =>
      match earliest rest with
      | Some u => if due u <? due t then Some u else Some t
      | None => Some t
      end
  end.

(** One timer fires: it leaves the table, the clock is at its due time (or
    later, if it already was), and its callback runs; an exception of the
    callback is reported and the page keeps what the callback did. *)
Definition fire (tm : Timer) (p : Page) : Page :=
  let p1 := with_timers (filter (λ u, timerId u ≠ timerId tm) (timers p)) p in
  let p2 := with_clock (clock p1 `max` due tm) p1 in
  exec (runCallback (callback tm)) p2.

(** Fires the timers due at or before [t], earliest first. *)
Fixpoint fireDue (fuel : nat) (t : nat) (p : Page) : Page :=
  match fuel with
  | 0 => p
  | S fuel' =>
      match earliest (timers p) with
      | Some tm => if due tm <=? t then fireDue fuel' t (fire tm p) else p
      | None => p
      end
  end.

(** Time passes until [t]; no callback of the script sets a timer, so the
    timers pending at the start bound the number of firings. *)
Definition elapseTo (t : nat) (p : Page) : Page :=
  let p' := fireDue (length (timers p)) t p in
  with_clock (clock p' `max` t) p'.

(** * Vocabulary of the properties *)

(** The two element updates of the trigger. *)
Definition markAnimated (e : Element) : Element :=
  with_classList (tokens_add (classList e) "animate") e.

Definition withDelay (d : CssText) (e : Element) : Element :=
  with_style (set_transitionDelay d (style e)) e.

(** The delay text [addStaggeredAnimation] computes for [element] under
    [parent], on the tree as page [p] has it. *)
Definition staggerDelay (p : Page) (parent element : ref) : CssText :=
  NumUnit (PrimFloat.mul (js_number (indexOf (children (store p parent)) element))
                         0.2%float) "s".

(** A batch of entries is delivered to the callback; if the callback
    throws, the page keeps what it did until then. *)
Definition deliver (batch : list Entry) (p : Page) : Page :=
  exec (handleIntersection batch) p.

Definition deliverAll (batches : list (list Entry)) (p : Page) : Page :=
  foldl (λ q batch, deliver batch q) p batches.

(** The observer reports entries of registered targets only. *)
Definition notify (batch : list Entry) (p : Page) : Page :=
  deliver (filter (λ entry, target entry ∈ observed p) batch) p.

(** The animated flag of [r] before the first batch and after each one. *)
Fixpoint flagTrace (r : ref) (batches : list (list Entry)) (p : Page) : list bool :=
  animated p r ::
  match batches with
  | [] => []
  | batch :: rest => flagTrace r rest (deliver batch p)
  end.

(** Changes of the flag from false to true, and from true to false, along
    a trace. *)
Fixpoint rises (l : list bool) : nat :=
  match l with
  | a :: (b :: _) as rest => (if negb a && b then 1 else 0) + rises rest
  | _ => 0
  end.

Fixpoint falls (l : list bool) : nat :=
  match l with
  | a :: (b :: _) as rest => (if a && negb b then 1 else 0) + falls rest
  | _ => 0
  end.

(** The callback changes neither the tree nor any class but [animate]. *)
Definition sameTree (p q : Page) : Prop :=
  ∀ x, parentElement (store q x) = parentElement (store p x) ∧
       children (store q x) = children (store p x) ∧
       ∀ tok, tok ≠ "animate" → hasClass q tok x = hasClass p tok x.

Definition delayOf (p : Page) (r : ref) : CssText :=
  transitionDelay (style (store p r)).

(** Whether a batch holds an intersecting entry for [r]. *)
Definition triggersIn (r : ref) (entries : list Entry) : bool :=
  existsb (λ entry, bool_decide (target entry = r) && isIntersecting entry) entries.

(** No intersecting entry of the batch is for a list item without a parent
    element. *)
Definition parentsPresent (p : Page) (entries : list Entry) : Prop :=
  ∀ entry, entry ∈ entries → isIntersecting entry = true →
           isListItem p (target entry) = true →
           is_Some (parentElement (store p (target entry))).

(** Every batch of the sequence is handled without a throw. *)
Fixpoint allComplete (batches : list (list Entry)) (p : Page) : Prop :=
  match batches with
  | [] => True
  | batch :: rest =>
      fst (handleIntersection batch p) = Done tt ∧ allComplete rest (deliver batch p)
  end.

Definition noStyle : Style :=
  mkStyle (Lit "") (Lit "") (Lit "") (Lit "") (Lit "").

Definition elt (tag id : string) (href : option string) (classes : list string)
    (parent : option ref) (kids : list ref) : Element :=
  mkElement tag id href classes noStyle parent kids.

(** html > body > [ div.hero-content, ul > li.problem-item * 3,
    section#services > [ h2, div.service-block ], a[href=#services],
    div.loader, a[href=#missing] ]. *)
Definition sampleStore (r : ref) : Element :=
  match r with
  | 0 => elt "html" "" None [] None [1]
  | 1 => elt "body" "" None [] (Some 0) [2; 3; 7; 10; 11; 12]
  | 2 => elt "div" "" None ["hero-content"] (Some 1) []
  | 3 => elt "ul" "" None [] (Some 1) [4; 5; 6]
  | 4 => elt "li" "" None ["problem-item"] (Some 3) []
  | 5 => elt "li" "" None ["problem-item"] (Some 3) []
  | 6 => elt "li" "" None ["problem-item"] (Some 3) []
  | 7 => elt "section" "services" None [] (Some 1) [8; 9]
  | 8 => elt "h2" "" None [] (Some 7) []
  | 9 => elt "div" "" None ["service-block"] (Some 7) []
  | 10 => elt "a" "" (Some "#services") [] (Some 1) []
  | 11 => elt "div" "" None ["loader"] (Some 1) []
  | 12 => elt "a" "" (Some "#missing") [] (Some 1) []
  | _ => elt "" "" None [] None []
  end.

Definition samplePage : Page :=
  mkPage sampleStore [0; 1; 2; 3; 4; 5; 6; 7; 8; 9; 10; 11; 12] (Some 1)
         ∅ [] 0 [] 0 None [] [].

(** A page whose root element carries the list-item class: the root has no
    parent element. *)
Definition rootItemStore (r : ref) : Element :=
  match r with
  | 0 => elt "html" "" None ["problem-item"] None [1]
  | 1 => elt "body" "" None [] (Some 0) []
  | _ => elt "" "" None [] None []
  end.

Definition rootItemPage : Page :=
  mkPage rootItemStore [0; 1] (Some 1) {[ 0 ]} [] 0 [] 0 None [] [].

(** The state of an element right after its trigger: animated, and for a
    list item with a parent, carrying the delay of its place in the tree. *)
Definition settled (p : Page) (r : ref) : Prop :=
  animated p r = true ∧
  (isListItem p r = true →
   ∀ parent, parentElement (store p r) = Some parent →
             delayOf p r = staggerDelay p parent r).

(** [t] is an element of the document whose id is [id]. *)
Definition namedBy (p : Page) (id : string) (t : ref) : Prop :=
  t ∈ docElements p ∧ id ≠ "" ∧ idAttr (store p t) = id.

(** The body of the loop of [initServiceBlocksAnimation]. *)
Definition serviceBlockStep (block : ref) (index : Z) : JS unit :=
  setStyle block
    (set_transitionDelay (NumUnit (PrimFloat.mul (js_number index) 0.2%float) "s")) ;;;
  observe block.

Definition hoverCycle (this : ref) (p : Page) : Page :=
  exec (onMouseLeave this) (exec (onMouseEnter this) p).

(** The element a hover cycle leaves behind: the two resting values
    written over whatever was there. *)
Definition atRest (e : Element) : Element :=
  with_style (set_boxShadow (Lit "none") (set_transform (Lit "translateY(0)") (style e))) e.

Definition throttleArg (cb : Callback) : option nat :=
  match cb with
  | ThrottleLater args => Some args
  | _ => None
  end.

Definition throttleEntry (tm : Timer) : option (nat * nat) :=
  (λ args, (due tm, args)) <$> throttleArg (callback tm).

(** The pending calls of [later]: due time and argument. *)
Definition throttleView (p : Page) : list (nat * nat) :=
  omap throttleEntry (timers p).

(** What the timer facility and [throttle] maintain: identifiers are
    distinct and below the next one, no pending timer is overdue, and the
    closure variable [timeout] names a pending timer exactly when that timer
    is a call of [later]. *)
Record timersWf (p : Page) : Prop := mkTimersWf {
  wf_ids : NoDup (timerId <$> timers p);
  wf_fresh : ∀ tm, tm ∈ timers p → timerId tm < nextTimerId p;
  wf_clock : ∀ tm, tm ∈ timers p → clock p ≤ due tm;
  wf_timeout_fresh : ∀ i, timeout p = Some i → i < nextTimerId p;
  wf_timeout : ∀ tm, tm ∈ timers p →
    (timeout p = Some (timerId tm) ↔ is_Some (throttleArg (callback tm)))
}.

(** The timers left by the [clearTimeout(timeout)] of [executedFunction]. *)
Definition cleared (q : Page) : list Timer :=
  match timeout q with
  | None => timers q
  | Some i => filter (λ t, timerId t ≠ i) (timers q)
  end.

(** A resize event arrives [gap] milliseconds after the page was last
    looked at. *)
Definition resizeAfter (gap ev : nat) (p : Page) : Page :=
  exec (onResize ev) (elapseTo (clock p + gap) p).

Definition resizeRun (evs : list (nat * nat)) (p : Page) : Page :=
  foldl (λ q e, resizeAfter (fst e) (snd e) q) p evs.

(** The arrival times of events given by their gaps. *)
Fixpoint arrivals (now : nat) (evs : list (nat * nat)) : list (nat * nat) :=
  match evs with
  | [] => []
  | e :: rest => (now + fst e, snd e) :: arrivals (now + fst e) rest
  end.

(** Timed events split into bursts: an event belongs to the burst of the
    event before it when it arrives less than [wait] after it. *)
Fixpoint burstsFrom (wait : nat) (cur : list (nat * nat)) (last : nat * nat)
    (rest : list (nat * nat)) : list (list (nat * nat)) :=
  match rest with
  | [] => [cur ++ [last]]
  | e :: rest' =>
      if fst e <? fst last + wait
      then burstsFrom wait (cur ++ [last]) e rest'
      else (cur ++ [last]) :: burstsFrom wait [] e rest'
  end.

Definition bursts (wait : nat) (evs : list (nat * nat)) : list (list (nat * nat)) :=
  match evs with
  | [] => []
  | e :: rest => burstsFrom wait [] e rest
  end.

(** The call a burst ends in: [wait] after its last event, with the
    argument of that event. *)
Definition trailingCall (wait : nat) (burst : list (nat * nat)) : option (nat * nat) :=
  (λ e, (fst e + wait, snd e)) <$> last burst.

Definition addLoaded (e : Element) : Element :=
  with_classList (tokens_add (classList e) "loaded") e.

Definition fadeOut (e : Element) : Element :=
  with_style (set_opacity (Lit "0") (style e)) e.

Definition displayOf (p : Page) (r : ref) : CssText :=
  display (style (store p r)).

(** The list of the sample page with its items in the opposite order. *)
Definition reverseList (p : Page) : Page :=
  with_store (<[3 := elt "ul" "" None [] (Some 1) [6; 5; 4]]> (store p)) p.

(** ** Events of the page *)

(** What can happen to the page once the script is loaded.  Each event
    runs the listener the script has for it; an exception of a listener is
    reported and the page keeps what the listener did. *)
Inductive Event : Type :=
  | PageReady
  | WindowLoad
  | Intersections (batch : list Entry)
  | Click (link : ref)
  | MouseEnter (block : ref)
  | MouseLeave (block : ref)
  | Resize (ev : nat)
  | Elapse (ms : nat).

Definition react (e : Event) (p : Page) : Page :=
  match e with
  | PageReady => exec onDOMContentLoaded p
  | WindowLoad => exec onLoad p
  | Intersections batch => deliver batch p
  | Click link => exec (anchorClick link) p
  | MouseEnter block => exec (onMouseEnter block) p
  | MouseLeave block => exec (onMouseLeave block) p
  | Resize ev => exec (onResize ev) p
  | Elapse ms => elapseTo (clock p + ms) p
  end.

Definition reactAll (events : list Event) (p : Page) : Page :=
  foldl (λ q e, react e q) p events.

Definition notifyAll (batches : list (list Entry)) (p : Page) : Page :=
  foldl (λ q batch, notify batch q) p batches.

(** A handler keeps a relation between the page before and the page after,
    whether it returns or throws. *)
Definition preserved (R : Page → Page → Prop) {A} (m : JS A) : Prop :=
  ∀ p, R p (snd (m p)).

(** The document is the same and no element lost anything but, possibly,
    inline style: same tree, tags, ids and hrefs, and every class still
    there. *)
Definition grows (p q : Page) : Prop :=
  docElements q = docElements p ∧
  docBody q = docBody p ∧
  ∀ x, tagName (store q x) = tagName (store p x) ∧
       idAttr (store q x) = idAttr (store p x) ∧
       hrefAttr (store q x) = hrefAttr (store p x) ∧
       parentElement (store q x) = parentElement (store p x) ∧
       children (store q x) = children (store p x) ∧
       ∀ tok, tok ∈ classList (store p x) → tok ∈ classList (store q x).

(** No element was registered with the observer. *)
Definition shrinks (p q : Page) : Prop :=
  observed q ⊆ observed p.

(** An element update that changes class list and style only, and drops
    no class. *)
Definition gentle (g : Element → Element) : Prop :=
  ∀ e, tagName (g e) = tagName e ∧ idAttr (g e) = idAttr e ∧
       hrefAttr (g e) = hrefAttr e ∧ parentElement (g e) = parentElement e ∧
       children (g e) = children e ∧
       ∀ tok, tok ∈ classList e → tok ∈ classList (g e).

(** What the intersection callback may do to a page: take elements out of
    the observation set, and change class lists and transition delays.
    The rest of every element, and the rest of the page, is as before. *)
Definition onlyAnimates (p q : Page) : Prop :=
  docElements q = docElements p ∧ docBody q = docBody p ∧
  listeners q = listeners p ∧ clock q = clock p ∧ timers q = timers p ∧
  nextTimerId q = nextTimerId p ∧ timeout q = timeout p ∧
  resizeCalls q = resizeCalls p ∧ effects q = effects p ∧
  observed q ⊆ observed p ∧
  ∀ x, tagName (store q x) = tagName (store p x) ∧
       idAttr (store q x) = idAttr (store p x) ∧
       hrefAttr (store q x) = hrefAttr (store p x) ∧
       parentElement (store q x) = parentElement (store p x) ∧
       children (store q x) = children (store p x) ∧
       transform (style (store q x)) = transform (style (store p x)) ∧
       boxShadow (style (store q x)) = boxShadow (style (store p x)) ∧
       opacity (style (store q x)) = opacity (style (store p x)) ∧
       display (style (store q x)) = display (style (store p x)).

(** Whether handling the entry on page [p] runs into the missing parent. *)
Definition hitsMissingParent (p : Page) (entry : Entry) : bool :=
  isIntersecting entry && isListItem p (target entry) &&
  bool_decide (parentElement (store p (target entry)) = None).
(** ** Page-ready, step by step *)

(** The page after [initHeroAnimation]. *)
Definition heroScheduled (p : Page) : Page :=
  match firstMatch "hero-content" p with
  | Some h => snd (setTimeout (HeroReveal h) 300 p)
  | None => p
  end.

(** The elements of the document with one of the classes are registered
    with the observer. *)
Definition observing (classes : list string) (p : Page) : Page :=
  with_observed (list_to_set (matching classes p) ∪ observed p) p.

(** The links [a[href^="#"]] of the document, in tree order. *)
Definition hashLinks (p : Page) : list ref :=
  filter (λ r, Is_true (isHashLink (store p r))) (docElements p).

Definition clickListeners (p : Page) : list (ref * ListenerKind) :=
  (λ link, (link, OnClick)) <$> hashLinks p.

Definition hoverListeners (p : Page) : list (ref * ListenerKind) :=
  matching ["service-block"] p ≫= λ block, [(block, OnMouseEnter); (block, OnMouseLeave)].


(** Only transition delays differ between the two pages, the observation
    set apart. *)
Definition onlyDelays (p q : Page) : Prop :=
  docElements q = docElements p ∧ docBody q = docBody p ∧
  listeners q = listeners p ∧ clock q = clock p ∧ timers q = timers p ∧
  nextTimerId q = nextTimerId p ∧ timeout q = timeout p ∧
  resizeCalls q = resizeCalls p ∧ effects q = effects p ∧
  ∀ x, ∃ d, store q x = withDelay d (store p x).
(** The page after page-ready, one initialisation after the other. *)
Definition readyPage (p : Page) : Page :=
  let q1 := exec initServiceBlocksAnimation (heroScheduled p) in
  let q2 := observing ["solution-item"] (observing ["problem-item"] q1) in
  let q3 := observing ["mission-content"; "contact-content"; "pulse-animation"] q2 in
  let q4 := with_listeners (listeners q3 ++ clickListeners q3) q3 in
  let q5 := with_listeners (listeners q4 ++ hoverListeners q4) q4 in
  with_effects
    (effects q5 ++
     [ConsoleLog "AI Automation Agency website animations initialized successfully!"]) q5.
(** The same document with the same elements, inline transition delays
    apart. *)
Definition sameMarkup (p q : Page) : Prop :=
  docElements q = docElements p ∧ docBody q = docBody p ∧
  ∀ x, ∃ d, store q x = withDelay d (store p x).
(** ** Timers across events *)

(** A handler that leaves the calls of [later], pending and made, as they
    are, and the timer table well formed. *)
Definition timersSafe (p q : Page) : Prop :=
  timersWf p →
  timersWf q ∧ throttleView q = throttleView p ∧ resizeCalls q = resizeCalls p.

Definition isResize (e : Event) : bool :=
  match e with
  | Resize _ => true
  | _ => false
  end.

Fixpoint countResizes (events : list Event) : nat :=
  match events with
  | [] => 0
  | e :: rest => (if isResize e then 1 else 0) + countResizes rest
  end.
(** ** Hover and the other listeners *)

Definition hoverEvent (enter : bool) (this : ref) : JS unit :=
  if enter then onMouseEnter this else onMouseLeave this.

(** A sequence of pointer moves over one block: [true] enters, [false]
    leaves. *)
Definition hoverRun (moves : list bool) (this : ref) (p : Page) : Page :=
  foldl (λ q enter, exec (hoverEvent enter this) q) p moves.

(** The style one hover listener leaves, on top of the style [st]. *)
Definition hoverStyle (enter : bool) (st : Style) : Style :=
  if enter
  then set_boxShadow (Lit "0 10px 30px rgba(0, 0, 0, 0.1)")
         (set_transform (Lit "translateY(-5px)") st)
  else set_boxShadow (Lit "none") (set_transform (Lit "translateY(0)") st).

(** The animation state of the page is the same: what is observed, what is
    animated, and the transition delays. *)
Definition sameAnimation (p q : Page) : Prop :=
  observed q = observed p ∧
  ∀ x, animated q x = animated p x ∧ delayOf q x = delayOf p x.

(** The events whose listeners have to do with the animation: page-ready,
    the observer's reports, and time (the hero timer). *)
Definition drivesAnimation (e : Event) : bool :=
  match e with
  | PageReady | Intersections _ | Elapse _ => true
  | _ => false
  end.
(** If the display of [l] was [none], it still is. *)
Definition staysHidden (l : ref) (p q : Page) : Prop :=
  displayOf p l = Lit "none" → displayOf q l = Lit "none".

Definition sampleEvents : list Event :=
  [PageReady; WindowLoad; Intersections [mkEntry 4 true; mkEntry 9 true];
   Resize 1; Elapse 100; MouseEnter 9; Resize 2; Click 10; Elapse 300;
   MouseLeave 9].

(** * Properties *)

(** ** Reasoning about handlers *)

Ltac js_unfold :=
  unfold exec, handleIntersection, forEach, forEachi, classList_add,
    classList_contains, setStyle, alterElement, observe, unobserve, emit,
    addEventListener, clearTimeout, bind, gets, modify, ret, throw in *;
  cbn [fst snd store observed docElements docBody listeners clock timers
       nextTimerId timeout resizeCalls effects with_store with_observed
       with_effects with_listeners with_timers with_clock with_timeout
       with_nextTimerId with_resizeCalls] in *.

Lemma bind_run {A B} (m : JS A) (k : A → JS B) p :
  bind m k p =
  match m p with
  | (Done a, p') => k a p'
  | (Thrown err, p') => (Thrown err, p')
  end.
Proof. reflexivity. Qed.

Lemma tokens_contains_add cl tok tok' :
  tokens_contains cl tok' = true → tokens_contains (tokens_add cl tok) tok' = true.
Proof.
  unfold tokens_add, tokens_contains. intros H%bool_decide_eq_true.
  apply bool_decide_eq_true. case_bool_decide; set_solver.
Qed.

Lemma tokens_contains_add_same cl tok :
  tokens_contains (tokens_add cl tok) tok = true.
Proof.
  unfold tokens_add. destruct (tokens_contains cl tok) eqn:E; [done|].
  unfold tokens_contains. apply bool_decide_eq_true. set_solver.
Qed.

Lemma tokens_add_idem cl tok :
  tokens_contains cl tok = true → tokens_add cl tok = cl.
Proof. unfold tokens_add. by intros ->. Qed.

Lemma tokens_contains_add_ne cl tok tok' :
  tok ≠ tok' → tokens_contains (tokens_add cl tok) tok' = tokens_contains cl tok'.
Proof.
  intros Hne. unfold tokens_add. destruct (tokens_contains cl tok); [done|].
  unfold tokens_contains. apply bool_decide_ext. set_solver.
Qed.

(** The page after [addStaggeredAnimation], in both of its cases. *)
Lemma addStaggeredAnimation_run element p :
  addStaggeredAnimation element p =
  match parentElement (store p element) with
  | None => (Thrown "TypeError", p)
  | Some parent =>
      (Done tt,
       with_store
         (alter (λ e, with_style
                   (set_transitionDelay
                      (NumUnit (PrimFloat.mul
                                  (js_number (indexOf (children (store p parent)) element))
                                  0.2%float) "s")
                      (style e)) e)
                element (store p)) p)
  end.
Proof.
  unfold addStaggeredAnimation. js_unfold.
  destruct (parentElement (store p element)); reflexivity.
Qed.

Lemma alter_proj {B} (proj : Element → B) (g : Element → Element) t (f : ref → Element) r :
  (∀ e, proj (g e) = proj e) → proj (alter g t f r) = proj (f r).
Proof.
  intros Hg. unfold alter, fn_alter. destruct (decide (t = r)); subst; auto.
Qed.

(** [handleEntry] in closed form. *)
Lemma handleEntry_run entry p :
  handleEntry entry p =
  if isIntersecting entry then
    let t := target entry in
    let p1 := with_store (alter markAnimated t (store p)) p in
    if isListItem p t then
      match parentElement (store p t) with
      | None => (Thrown "TypeError", p1)
      | Some parent =>
          (Done tt,
           with_observed (observed p ∖ {[ t ]})
             (with_store (alter (withDelay (staggerDelay p parent t)) t (store p1)) p1))
      end
    else (Done tt, with_observed (observed p ∖ {[ t ]}) p1)
  else (Done tt, p).
Proof.
  unfold handleEntry. destruct (isIntersecting entry); [|reflexivity].
  cbn zeta. js_unfold. fold markAnimated.
  set (t := target entry).
  assert (Hcls : ∀ tok, tok ≠ "animate" →
            tokens_contains (classList (alter markAnimated t (store p) t)) tok
            = tokens_contains (classList (store p t)) tok).
  { intros tok Hne. rewrite fn_lookup_alter. cbn.
    by apply tokens_contains_add_ne. }
  rewrite !Hcls by done. unfold isListItem, hasClass.
  destruct (_ || _); [|reflexivity].
  rewrite addStaggeredAnimation_run. cbn [store with_store].
  rewrite (alter_proj parentElement) by done.
  destruct (parentElement (store p t)) as [parent|]; [|reflexivity].
  cbn. unfold staggerDelay, withDelay.
  by rewrite (alter_proj children).
Qed.

(** ** Loops *)

Lemma forEach_from_index {A} (xs : list A) (f : A → JS unit) i j :
  forEach_from i xs (λ x _, f x) = forEach_from j xs (λ x _, f x).
Proof.
  revert i j. induction xs as [|x xs IH]; intros i j; [reflexivity|].
  cbn [forEach_from]. by rewrite (IH (i + 1)%Z (j + 1)%Z).
Qed.

Lemma forEach_nil {A} (f : A → JS unit) : forEach [] f = ret tt.
Proof. reflexivity. Qed.

Lemma forEach_cons {A} (x : A) xs (f : A → JS unit) :
  forEach (x :: xs) f = (f x ;;; forEach xs f).
Proof.
  unfold forEach, forEachi. cbn [forEach_from].
  by rewrite (forEach_from_index xs f (0 + 1)%Z 0%Z).
Qed.

(** A property every iteration preserves holds after the loop, whether the
    loop ran to its end or was cut short by a throw. *)
Lemma forEach_invariant {A} (Inv : Page → Prop) (xs : list A) (f : A → JS unit) p :
  (∀ x q, x ∈ xs → Inv q → Inv (exec (f x) q)) →
  Inv p → Inv (exec (forEach xs f) p).
Proof.
  revert p. induction xs as [|x xs IH]; intros p Hstep Hp; [exact Hp|].
  rewrite forEach_cons. unfold exec. rewrite bind_run.
  specialize (Hstep x p) as Hx. unfold exec in Hx.
  destruct (f x p) as [[[]|err] q] eqn:Hf; cbn [snd] in *.
  - apply IH; [|apply Hx; [left|done]].
    intros y q' Hy. apply Hstep. by right.
  - apply Hx; [left|done].
Qed.

(** ** The animated flag *)

Lemma markAnimated_animate e :
  tokens_contains (classList (markAnimated e)) "animate" = true.
Proof. apply tokens_contains_add_same. Qed.

Lemma handleEntry_keeps_class entry p r tok :
  hasClass p tok r = true → hasClass (exec (handleEntry entry) p) tok r = true.
Proof.
  unfold hasClass, exec. rewrite handleEntry_run.
  destruct (isIntersecting entry); [|done]. cbn zeta.
  intros H.
  assert (H1 : tokens_contains
                 (classList (alter markAnimated (target entry) (store p) r)) tok = true).
  { unfold alter, fn_alter. destruct (decide _) as [->|]; [|done].
    by apply tokens_contains_add. }
  destruct (isListItem p (target entry)); [|done].
  destruct (parentElement _); [|done].
  cbn. by rewrite (alter_proj classList).
Qed.

Lemma deliver_keeps_class batch p r tok :
  hasClass p tok r = true → hasClass (deliver batch p) tok r = true.
Proof.
  unfold deliver, handleIntersection.
  apply (forEach_invariant (λ q, hasClass q tok r = true)).
  intros entry q _. apply handleEntry_keeps_class.
Qed.

Lemma handleEntry_not_intersecting entry p :
  isIntersecting entry = false → handleEntry entry p = (Done tt, p).
Proof. intros H. rewrite handleEntry_run. by rewrite H. Qed.

Lemma handleEntry_other entry p r :
  r ≠ target entry →
  store (exec (handleEntry entry) p) r = store p r ∧
  (r ∈ observed (exec (handleEntry entry) p) ↔ r ∈ observed p).
Proof.
  intros Hne. unfold exec. rewrite handleEntry_run.
  destruct (isIntersecting entry); [|done]. cbn zeta.
  destruct (isListItem p (target entry)); [destruct (parentElement _)|];
    cbn; rewrite ?fn_lookup_alter_ne by done; (split; [done|set_solver]).
Qed.

Lemma rises_cons a b l :
  rises (a :: b :: l) = (if negb a && b then 1 else 0) + rises (b :: l).
Proof. reflexivity. Qed.

Lemma falls_cons a b l :
  falls (a :: b :: l) = (if a && negb b then 1 else 0) + falls (b :: l).
Proof. reflexivity. Qed.

Lemma flagTrace_head r batches p :
  ∃ tl, flagTrace r batches p = animated p r :: tl.
Proof. destruct batches; cbn [flagTrace]; eauto. Qed.

Lemma flagTrace_animated r batches p :
  animated p r = true →
  rises (flagTrace r batches p) = 0 ∧ falls (flagTrace r batches p) = 0.
Proof.
  revert p. induction batches as [|batch rest IH]; intros p Hp; [done|].
  pose proof (deliver_keeps_class batch p r "animate" Hp) as Hq.
  destruct (IH _ Hq) as [IHr IHf].
  cbn [flagTrace].
  destruct (flagTrace_head r rest (deliver batch p)) as [tl Htl].
  rewrite Htl in *. rewrite rises_cons, falls_cons, IHr, IHf.
  fold (animated (deliver batch p) r) in Hq. rewrite Hp, Hq. done.
Qed.

Lemma flagTrace_monotone r batches p :
  rises (flagTrace r batches p) ≤ 1 ∧ falls (flagTrace r batches p) = 0.
Proof.
  revert p. induction batches as [|batch rest IH]; intros p; [cbn; lia|].
  destruct (animated p r) eqn:Hp.
  { destruct (flagTrace_animated r (batch :: rest) p Hp) as [-> ->]. lia. }
  cbn [flagTrace]. rewrite Hp.
  destruct (flagTrace_head r rest (deliver batch p)) as [tl Htl].
  destruct (animated (deliver batch p) r) eqn:Hq.
  - destruct (flagTrace_animated r rest _ Hq) as [Hr Hf].
    rewrite Htl in *. rewrite rises_cons, falls_cons, Hr, Hf. cbn [negb andb]. lia.
  - destruct (IH (deliver batch p)) as [Hr Hf].
    rewrite Htl in *. rewrite rises_cons, falls_cons, Hf. cbn [negb andb]. lia.
Qed.

Lemma deliver_untouched batch p r :
  (∀ entry, entry ∈ batch → target entry = r → isIntersecting entry = false) →
  store (deliver batch p) r = store p r ∧
  (r ∈ observed (deliver batch p) ↔ r ∈ observed p).
Proof.
  intros Hbatch. unfold deliver, handleIntersection.
  apply (forEach_invariant
           (λ q, store q r = store p r ∧ (r ∈ observed q ↔ r ∈ observed p)));
    [|done].
  intros entry q Hin [Hs Ho].
  destruct (decide (r = target entry)) as [Heq|Hne].
  - unfold exec. rewrite handleEntry_not_intersecting by (by apply Hbatch). done.
  - destruct (handleEntry_other entry q r Hne) as [Hs' Ho'].
    rewrite Hs', Ho'. done.
Qed.

(** C1. For every element and every sequence of notification batches, the
    animated flag (membership of the [animate] class) goes from false to
    true at most once along the sequence and never from true to false; and
    a batch in which every entry of the element is not intersecting leaves
    the element object, and its registration, as they were. *)
Theorem animated_flag_transitions_once (r : ref) (batches : list (list Entry)) (p : Page) :
  rises (flagTrace r batches p) ≤ 1 ∧
  falls (flagTrace r batches p) = 0 ∧
  ∀ batch q,
    (∀ entry, entry ∈ batch → target entry = r → isIntersecting entry = false) →
    store (deliver batch q) r = store q r ∧
    (r ∈ observed (deliver batch q) ↔ r ∈ observed q).
Proof.
  destruct (flagTrace_monotone r batches p) as [Hr Hf].
  split; [exact Hr|]. split; [exact Hf|].
  intros batch q. apply deliver_untouched.
Qed.

(** ** Stagger delays *)

Lemma indexOf_from_lookup items element i k :
  NoDup items → items !! i = Some element →
  indexOf_from items element k = (k + Z.of_nat i)%Z.
Proof.
  revert i k. induction items as [|x items IH]; intros i k Hnd Hi; [done|].
  apply NoDup_cons in Hnd as [Hx Hnd]. cbn [indexOf_from].
  destruct i as [|i]; cbn in Hi.
  - injection Hi as ->. rewrite decide_True by done. lia.
  - rewrite decide_False.
    + rewrite (IH i) by done. lia.
    + intros ->. apply Hx. by eapply list_elem_of_lookup_2.
Qed.

Lemma indexOf_lookup items element i :
  NoDup items → items !! i = Some element → indexOf items element = Z.of_nat i.
Proof. intros. unfold indexOf. by rewrite (indexOf_from_lookup _ _ i). Qed.

Lemma sameTree_refl p : sameTree p p.
Proof. by intros x. Qed.

Lemma sameTree_isListItem p q x : sameTree p q → isListItem q x = isListItem p x.
Proof.
  intros H. destruct (H x) as (_ & _ & Hc). unfold isListItem.
  by rewrite !Hc by done.
Qed.

Lemma sameTree_staggerDelay p q parent x :
  sameTree p q → staggerDelay q parent x = staggerDelay p parent x.
Proof.
  intros H. destruct (H parent) as (_ & Hc & _). unfold staggerDelay. by rewrite Hc.
Qed.

Lemma hasClass_markAnimated (f : ref → Element) t x tok :
  tok ≠ "animate" →
  tokens_contains (classList (alter markAnimated t f x)) tok
  = tokens_contains (classList (f x)) tok.
Proof.
  intros Hne. unfold alter, fn_alter. destruct (decide (t = x)) as [->|]; [|done].
  cbn. by apply tokens_contains_add_ne.
Qed.

Lemma sameTree_trans p q q' : sameTree p q → sameTree q q' → sameTree p q'.
Proof.
  intros H1 H2 x. destruct (H1 x) as (Hp & Hc & Hk), (H2 x) as (Hp' & Hc' & Hk').
  rewrite Hp', Hc'. split; [done|split; [done|]].
  intros tok Hne. by rewrite Hk', Hk.
Qed.

Lemma sameTree_alter p q (g : Element → Element) t :
  (∀ e, parentElement (g e) = parentElement e) →
  (∀ e, children (g e) = children e) →
  (∀ e tok, tok ≠ "animate" →
     tokens_contains (classList (g e)) tok = tokens_contains (classList e) tok) →
  store q = alter g t (store p) → sameTree p q.
Proof.
  intros Hp Hc Hk Hq x. unfold hasClass. rewrite Hq.
  unfold alter, fn_alter. destruct (decide (t = x)) as [->|]; [|done].
  rewrite Hp, Hc. split; [done|split; [done|]]. intros. by apply Hk.
Qed.

Lemma sameTree_markAnimated p q t :
  store q = alter markAnimated t (store p) → sameTree p q.
Proof.
  apply sameTree_alter; [done..|]. intros e tok Hne. cbn.
  by apply tokens_contains_add_ne.
Qed.

Lemma sameTree_withDelay p q d t :
  store q = alter (withDelay d) t (store p) → sameTree p q.
Proof. by apply sameTree_alter. Qed.

Lemma handleEntry_sameTree p entry q :
  sameTree p q → sameTree p (exec (handleEntry entry) q).
Proof.
  intros H. apply (sameTree_trans p q); [done|].
  unfold exec. rewrite handleEntry_run.
  destruct (isIntersecting entry); [|apply sameTree_refl]. cbn zeta.
  set (q1 := with_store (alter markAnimated (target entry) (store q)) q).
  assert (H1 : sameTree q q1) by (by apply (sameTree_markAnimated _ _ (target entry))).
  destruct (isListItem q (target entry)); [destruct (parentElement (store q _))|];
    cbn [snd]; [|done|by apply (sameTree_markAnimated _ _ (target entry))].
  apply (sameTree_trans q q1); [done|].
  by eapply sameTree_withDelay.
Qed.

Lemma triggersIn_app r xs ys :
  triggersIn r (xs ++ ys) = triggersIn r xs || triggersIn r ys.
Proof. unfold triggersIn. apply existsb_app. Qed.

Lemma triggersIn_true r entries :
  triggersIn r entries = true ↔
  ∃ entry, entry ∈ entries ∧ target entry = r ∧ isIntersecting entry = true.
Proof.
  unfold triggersIn. rewrite existsb_exists. split.
  - intros (e & He & [Ht Hi]%andb_true_iff). exists e.
    apply bool_decide_eq_true in Ht. by rewrite list_elem_of_In.
  - intros (e & He & Ht & Hi). exists e. rewrite <- list_elem_of_In.
    split; [done|]. apply andb_true_iff. by rewrite bool_decide_eq_true.
Qed.

Section Stagger.
(** A list item [r] under [parent], on the tree of page [p]; the pages
    [q] below are what the callback has made of [p] so far. *)
Variables (p : Page) (r parent : ref).
Hypothesis Hparent : parentElement (store p r) = Some parent.
Hypothesis Hitem : isListItem p r = true.

Lemma handleEntry_delay q entry :
  sameTree p q →
  (isIntersecting entry = true → isListItem p (target entry) = true →
   is_Some (parentElement (store p (target entry)))) →
  fst (handleEntry entry q) = Done tt ∧
  delayOf (exec (handleEntry entry) q) r =
    if bool_decide (target entry = r) && isIntersecting entry
    then staggerDelay p parent r else delayOf q r.
Proof.
  intros Hq Hok. unfold exec, delayOf. rewrite handleEntry_run.
  destruct (isIntersecting entry) eqn:Hi; [|by rewrite andb_false_r].
  rewrite andb_true_r. cbn zeta.
  rewrite (sameTree_isListItem p q) by done.
  destruct (Hq (target entry)) as (Hp' & _ & _). rewrite Hp'.
  case_bool_decide as Ht.
  - rewrite Ht, Hitem, Hparent. cbn. split; [done|].
    rewrite fn_lookup_alter. cbn. by apply sameTree_staggerDelay.
  - destruct (isListItem p (target entry)) eqn:Hl.
    + destruct (Hok eq_refl eq_refl) as [par ->]. cbn. split; [done|].
      by rewrite !fn_lookup_alter_ne by done.
    + cbn. split; [done|]. by rewrite !fn_lookup_alter_ne by done.
Qed.

Lemma deliver_delay q entries :
  sameTree p q →
  parentsPresent p entries →
  fst (handleIntersection entries q) = Done tt ∧
  sameTree p (deliver entries q) ∧
  delayOf (deliver entries q) r =
    if triggersIn r entries then staggerDelay p parent r else delayOf q r.
Proof.
  intros Hq. revert q Hq.
  unfold deliver, handleIntersection.
  induction entries as [|entry rest IH]; intros q Hq Hok; [done|].
  rewrite forEach_cons. unfold exec. rewrite bind_run.
  destruct (handleEntry_delay q entry Hq) as [Hd Hdel].
  { intros. apply Hok; [left|done..]. }
  pose proof (handleEntry_sameTree p entry q Hq) as Hq1.
  unfold exec in Hdel, Hq1.
  destruct (handleEntry entry q) as [o q1]; cbn [fst snd] in *. subst o.
  destruct (IH q1 Hq1) as (Hd' & Ht' & Hdel').
  { intros e He. apply Hok. by right. }
  split; [done|]. split; [done|].
  unfold exec in Hdel'. rewrite Hdel'. cbn [triggersIn existsb].
  fold (triggersIn r rest). rewrite Hdel.
  destruct (triggersIn r rest); [by rewrite orb_true_r|by rewrite orb_false_r].
Qed.

Lemma deliverAll_delay q batches :
  sameTree p q →
  parentsPresent p (concat batches) →
  allComplete batches q ∧
  sameTree p (deliverAll batches q) ∧
  delayOf (deliverAll batches q) r =
    if triggersIn r (concat batches) then staggerDelay p parent r else delayOf q r.
Proof.
  intros Hq. revert q Hq.
  induction batches as [|batch rest IH]; intros q Hq Hok; [done|].
  cbn [concat] in *.
  destruct (deliver_delay q batch Hq) as (Hd & Ht & Hdel).
  { intros e He. apply Hok. apply elem_of_app. by left. }
  destruct (IH (deliver batch q) Ht) as (Hd' & Ht' & Hdel').
  { intros e He. apply Hok. apply elem_of_app. by right. }
  cbn [allComplete deliverAll foldl]. fold (deliverAll rest (deliver batch q)).
  split; [done|]. split; [done|].
  rewrite Hdel', Hdel, triggersIn_app.
  by destruct (triggersIn r batch), (triggersIn r (concat rest)).
Qed.
End Stagger.

(** C2. A list item that triggers gets the transition delay [`${i * 0.2}s`],
    [i] being its position among the children of its parent element on the
    page as it is when the batches are delivered; the delay is the same
    however the intersecting entries are ordered and grouped into batches. *)
Theorem stagger_delay_is_sibling_index
    (p : Page) (entries : list Entry) (r parent : ref) (i : nat) :
  isListItem p r = true →
  parentElement (store p r) = Some parent →
  NoDup (children (store p parent)) →
  children (store p parent) !! i = Some r →
  parentsPresent p entries →
  (∃ entry, entry ∈ entries ∧ target entry = r ∧ isIntersecting entry = true) →
  ∀ batches, concat batches ≡ₚ entries →
    allComplete batches p ∧
    delayOf (deliverAll batches p) r
      = NumUnit (PrimFloat.mul (js_number (Z.of_nat i)) 0.2%float) "s".
Proof.
  intros Hli Hpar Hnd Hi Hok Htrig batches Hperm.
  destruct (deliverAll_delay p r parent Hpar Hli p batches (sameTree_refl p))
    as (Hd & _ & Hdel).
  { intros e He. apply Hok. by rewrite <- Hperm. }
  split; [done|]. rewrite Hdel.
  assert (Ht : triggersIn r (concat batches) = true).
  { apply triggersIn_true. destruct Htrig as (e & He & Ht & Hint).
    exists e. by rewrite Hperm. }
  rewrite Ht. unfold staggerDelay. by rewrite (indexOf_lookup _ _ i).
Qed.

(** ** The sample page at work *)

Example flagTrace_sample :
  flagTrace 5 [[mkEntry 4 true; mkEntry 5 false]; [mkEntry 5 true]; [mkEntry 5 false]]
            samplePage
  = [false; false; true; true].
Proof. vm_compute. reflexivity. Qed.

(** The third list item gets [2 * 0.2], the second [1 * 0.2], whatever the
    order of the entries. *)
Example stagger_sample :
  delayOf (deliver [mkEntry 6 true; mkEntry 4 true; mkEntry 5 true] samplePage) 6
    = NumUnit 0.4%float "s" ∧
  delayOf (deliver [mkEntry 4 true; mkEntry 5 true; mkEntry 6 true] samplePage) 6
    = NumUnit 0.4%float "s" ∧
  delayOf (deliver [mkEntry 6 true; mkEntry 5 true] samplePage) 5
    = NumUnit 0.2%float "s".
Proof. vm_compute. done. Qed.

(** In binary64, [3 * 0.2] is the number printed [0.6000000000000001]. *)
Example stagger_third_index :
  PrimFloat.mul (js_number 3) 0.2%float = 0.6000000000000001%float.
Proof. vm_compute. reflexivity. Qed.

Lemma stagger_delay_is_sibling_index_witness :
  allComplete [[mkEntry 6 true; mkEntry 4 true]; [mkEntry 5 true]] samplePage ∧
  delayOf (deliverAll [[mkEntry 6 true; mkEntry 4 true]; [mkEntry 5 true]] samplePage) 6
    = NumUnit (PrimFloat.mul (js_number (Z.of_nat 2)) 0.2%float) "s".
Proof.
  apply (stagger_delay_is_sibling_index samplePage
           [mkEntry 4 true; mkEntry 5 true; mkEntry 6 true] 6 3 2).
  - reflexivity.
  - reflexivity.
  - apply (bool_decide_unpack _). vm_compute. exact I.
  - reflexivity.
  - intros entry Hin _ _.
    repeat (apply elem_of_cons in Hin as [->|Hin]); [cbn; eauto..|].
    by apply elem_of_nil in Hin.
  - exists (mkEntry 6 true). split; [|by split].
    do 2 apply list_elem_of_further. apply list_elem_of_here.
  - apply (Permutation_cons_append [mkEntry 4 true; mkEntry 5 true]).
Defined.

(** ** Unregistration *)

(** An intersecting entry whose handling returns leaves its target
    animated and out of the observation set. *)
Lemma handleEntry_unobserves entry p :
  isIntersecting entry = true →
  fst (handleEntry entry p) = Done tt →
  animated (exec (handleEntry entry) p) (target entry) = true ∧
  target entry ∉ observed (exec (handleEntry entry) p).
Proof.
  intros Hi. unfold exec, animated, hasClass. rewrite handleEntry_run, Hi. cbn zeta.
  destruct (isListItem p (target entry)); [destruct (parentElement _)|];
    cbn [fst snd store observed with_store with_observed]; intros Hd; try done;
    rewrite !fn_lookup_alter; unfold withDelay; cbn [classList with_style];
    (split; [apply markAnimated_animate|set_solver]).
Qed.

Lemma with_classList_same e : with_classList (classList e) e = e.
Proof. by destruct e. Qed.

Lemma markAnimated_idem e :
  tokens_contains (classList e) "animate" = true → markAnimated e = e.
Proof.
  intros H. unfold markAnimated. rewrite tokens_add_idem by done.
  apply with_classList_same.
Qed.

Lemma withDelay_same e : withDelay (transitionDelay (style e)) e = e.
Proof. by destruct e as [? ? ? ? [] ? ?]. Qed.

Lemma handleEntry_settles entry p :
  isIntersecting entry = true →
  fst (handleEntry entry p) = Done tt →
  settled (exec (handleEntry entry) p) (target entry).
Proof.
  intros Hi Hd.
  destruct (handleEntry_unobserves entry p Hi Hd) as [Ha _]. split; [done|].
  pose proof (handleEntry_sameTree p entry p (sameTree_refl p)) as Ht.
  intros Hli parent Hpar.
  rewrite (sameTree_isListItem p) in Hli by done.
  destruct (Ht (target entry)) as (Hp' & _ & _). rewrite Hp' in Hpar.
  rewrite (sameTree_staggerDelay p) by done.
  destruct (handleEntry_delay p (target entry) parent Hpar Hli p entry) as [_ Hdel];
    [apply sameTree_refl|by intros _ _; exists parent|].
  rewrite Hdel, Hi. by rewrite bool_decide_eq_true_2.
Qed.

(** While the tree stays as it is, handling further entries changes nothing
    of a settled element, whether or not they are entries for it. *)
Lemma handleEntry_settled_fixed entry p r :
  settled p r → store (exec (handleEntry entry) p) r = store p r.
Proof.
  intros [Ha Hdel].
  destruct (decide (r = target entry)) as [->|Hne];
    [|by apply handleEntry_other].
  unfold exec. rewrite handleEntry_run.
  destruct (isIntersecting entry); [|done]. cbn zeta.
  assert (Hm : alter markAnimated (target entry) (store p) (target entry)
               = store p (target entry)).
  { rewrite fn_lookup_alter. by apply markAnimated_idem. }
  destruct (isListItem p (target entry)) eqn:Hli; [|done].
  destruct (parentElement (store p (target entry))) as [parent|] eqn:Hpar; [|done].
  cbn. rewrite fn_lookup_alter, Hm.
  rewrite <- (Hdel eq_refl parent eq_refl). apply withDelay_same.
Qed.

Lemma settled_preserved entry p r :
  settled p r → settled (exec (handleEntry entry) p) r.
Proof.
  intros Hs. pose proof (handleEntry_settled_fixed entry p r Hs) as Hfix.
  pose proof (handleEntry_sameTree p entry p (sameTree_refl p)) as Ht.
  destruct Hs as [Ha Hdel]. unfold settled, animated, isListItem, hasClass, delayOf.
  rewrite Hfix. split; [done|]. intros Hli parent Hpar.
  rewrite (sameTree_staggerDelay p) by done. by apply Hdel.
Qed.

Lemma redelivery_changes_nothing batches p r :
  settled p r → store (deliverAll batches p) r = store p r.
Proof.
  revert p. induction batches as [|batch rest IH]; intros p Hs; [done|].
  cbn [deliverAll foldl]. fold (deliverAll rest (deliver batch p)).
  assert (H : settled (deliver batch p) r ∧ store (deliver batch p) r = store p r).
  { unfold deliver, handleIntersection.
    apply (forEach_invariant (λ q, settled q r ∧ store q r = store p r)); [|done].
    intros entry q _ [Hq Heq]. split; [by apply settled_preserved|].
    by rewrite handleEntry_settled_fixed. }
  destruct H as [Hs' Heq]. by rewrite IH.
Qed.

(** An element that is not registered is not touched by what the observer
    reports, and stays unregistered. *)
Lemma notify_skips_unobserved batch p r :
  r ∉ observed p →
  store (notify batch p) r = store p r ∧ r ∉ observed (notify batch p).
Proof.
  intros Hr. unfold notify.
  destruct (deliver_untouched (filter (λ entry, target entry ∈ observed p) batch) p r)
    as [Hs Ho].
  { intros entry [Hobs _]%list_elem_of_filter Ht. by rewrite Ht in Hobs. }
  split; [done|]. by rewrite Ho.
Qed.

(** So a trigger that ran to its end is the last thing the callback does
    to the element. *)
Lemma trigger_is_final entry p batch :
  isIntersecting entry = true →
  fst (handleEntry entry p) = Done tt →
  store (notify batch (exec (handleEntry entry) p)) (target entry)
  = store (exec (handleEntry entry) p) (target entry).
Proof.
  intros Hi Hd. destruct (handleEntry_unobserves entry p Hi Hd) as [_ Hno].
  by apply notify_skips_unobserved.
Qed.

(** C3. On the page whose root element is a list item, the intersecting
    entry for the root marks it animated and then throws in
    [addStaggeredAnimation], before [unobserve] is reached: the element has
    triggered and is still registered. *)
Theorem parentless_item_stays_observed :
  fst (handleIntersection [mkEntry 0 true] rootItemPage) = Thrown "TypeError" ∧
  animated rootItemPage 0 = false ∧
  animated (deliver [mkEntry 0 true] rootItemPage) 0 = true ∧
  0 ∈ observed (deliver [mkEntry 0 true] rootItemPage).
Proof.
  split; [reflexivity|]. split; [reflexivity|]. split; [reflexivity|].
  apply (bool_decide_unpack _). vm_compute. exact I.
Qed.

(** C4. Handling an intersecting entry for a list item that has no parent
    element throws a TypeError: [addStaggeredAnimation] reads [children] of
    the null [parentElement] without a check, and the entries after it in
    the batch are not handled. *)
Theorem list_item_without_parent_throws :
  isListItem rootItemPage 0 = true ∧
  parentElement (store rootItemPage 0) = None ∧
  fst (addStaggeredAnimation 0 rootItemPage) = Thrown "TypeError" ∧
  fst (handleIntersection [mkEntry 0 true; mkEntry 1 true] rootItemPage)
    = Thrown "TypeError" ∧
  animated (deliver [mkEntry 0 true; mkEntry 1 true] rootItemPage) 1 = false.
Proof. repeat split; reflexivity. Qed.

(** ** Anchor navigation *)

Lemma head_filter_elem {A} (P : A → Prop) `{∀ x, Decision (P x)} (l : list A) x :
  head (filter P l) = Some x → x ∈ l ∧ P x.
Proof.
  intros Hh. assert (Hx : x ∈ filter P l).
  { destruct (filter P l); [done|]. injection Hh as ->. left. }
  by apply list_elem_of_filter in Hx as [? ?].
Qed.

Lemma head_filter_none {A} (P : A → Prop) `{∀ x, Decision (P x)} (l : list A) :
  head (filter P l) = None → ∀ x, x ∈ l → ¬ P x.
Proof.
  intros Hh x Hx HP.
  assert (Hin : x ∈ filter P l) by (by apply list_elem_of_filter).
  destruct (filter P l); [by apply elem_of_nil in Hin|done].
Qed.

Lemma getElementById_Some p id t :
  fst (getElementById id p) = Done (Some t) → namedBy p id t.
Proof.
  unfold getElementById, gets. cbn. destruct (decide (id = "")); [done|].
  intros [= Hh]. apply head_filter_elem in Hh as [? ?]. done.
Qed.

Lemma getElementById_None p id :
  fst (getElementById id p) = Done None → ¬ ∃ t, namedBy p id t.
Proof.
  unfold getElementById, gets. cbn. intros Hh (t & Hin & Hne & Hid).
  destruct (decide (id = "")); [done|].
  injection Hh as Hh. by eapply head_filter_none in Hh.
Qed.

(** The click listener in closed form, for a link that has an href. *)
Lemma anchorClick_run p this h :
  hrefAttr (store p this) = Some h →
  anchorClick this p =
  match fst (getElementById (substring1 h) p) with
  | Done (Some t) =>
      (Done tt,
       with_effects (effects p ++ [PreventDefault; ScrollIntoView t "smooth" "start"]) p)
  | _ => (Done tt, with_effects (effects p ++ [PreventDefault]) p)
  end.
Proof.
  intros Hh. unfold anchorClick, getElementById. js_unfold. rewrite Hh. cbn.
  destruct (decide (substring1 h = "")); [done|].
  destruct (head _); cbn; [|done].
  by rewrite <- app_assoc.
Qed.

(** C5. A click on a link whose href is [#] followed by a fragment: the
    listener returns; if the document has an element with the fragment as
    its id, the default action is prevented and there is exactly one scroll,
    smooth, to such an element; if it has none, the default action is
    prevented and there is no scroll.  Nothing else of the page changes. *)
Theorem anchor_click_scrolls_to_target (p : Page) (this : ref) (frag : string) :
  hrefAttr (store p this) = Some ("#" +:+ frag) →
  fst (anchorClick this p) = Done tt ∧
  ((∃ t, namedBy p frag t) →
   ∃ t, namedBy p frag t ∧
        exec (anchorClick this) p =
        with_effects (effects p ++ [PreventDefault; ScrollIntoView t "smooth" "start"]) p) ∧
  ((¬ ∃ t, namedBy p frag t) →
   exec (anchorClick this) p = with_effects (effects p ++ [PreventDefault]) p).
Proof.
  intros Hh. unfold exec. rewrite (anchorClick_run p this _ Hh).
  change (substring1 ("#" +:+ frag)) with frag.
  destruct (fst (getElementById frag p)) as [[t|]|err] eqn:Hg.
  - apply getElementById_Some in Hg. split; [done|]. split.
    + intros _. by exists t.
    + intros Hno. destruct Hno. by exists t.
  - apply getElementById_None in Hg. split; [done|]. split; [|done].
    intros Hex. by destruct Hg.
  - unfold getElementById, gets in Hg. done.
Qed.

Lemma anchor_click_scrolls_to_target_witness :
  fst (anchorClick 10 samplePage) = Done tt ∧
  ((∃ t, namedBy samplePage "services" t) →
   ∃ t, namedBy samplePage "services" t ∧
        exec (anchorClick 10) samplePage =
        with_effects (effects samplePage
                      ++ [PreventDefault; ScrollIntoView t "smooth" "start"]) samplePage) ∧
  ((¬ ∃ t, namedBy samplePage "services" t) →
   exec (anchorClick 10) samplePage
   = with_effects (effects samplePage ++ [PreventDefault]) samplePage).
Proof. apply (anchor_click_scrolls_to_target samplePage 10 "services"). reflexivity. Defined.

Example anchor_click_sample :
  effects (exec (anchorClick 10) samplePage)
    = [PreventDefault; ScrollIntoView 7 "smooth" "start"] ∧
  effects (exec (anchorClick 12) samplePage) = [PreventDefault].
Proof. split; reflexivity. Qed.

(** C10. A click on a link whose href begins with [#] always prevents the
    default action, first, whether or not an element has the referenced id;
    a scroll follows only when one has, and for the bare href [#] none
    does. *)
Theorem prevent_default_is_unconditional (p : Page) (this : ref) (h : string) :
  hrefAttr (store p this) = Some h →
  String.prefix "#" h = true →
  ∃ rest,
    anchorClick this p = (Done tt, with_effects (effects p ++ PreventDefault :: rest) p) ∧
    ((¬ ∃ t, namedBy p (substring1 h) t) → rest = []) ∧
    (h = "#" → rest = []) ∧
    (rest ≠ [] → ∃ t, namedBy p (substring1 h) t ∧ rest = [ScrollIntoView t "smooth" "start"]).
Proof.
  intros Hh _. rewrite (anchorClick_run p this _ Hh).
  destruct (fst (getElementById (substring1 h) p)) as [[t|]|err] eqn:Hg.
  - apply getElementById_Some in Hg.
    exists [ScrollIntoView t "smooth" "start"]. split; [done|]. split; [|split].
    + intros Hno. destruct Hno. by exists t.
    + intros ->. by destruct Hg as (_ & ? & _).
    + intros _. by exists t.
  - exists []. by repeat split.
  - unfold getElementById, gets in Hg. done.
Qed.

Lemma prevent_default_is_unconditional_witness :
  ∃ rest,
    anchorClick 12 samplePage
    = (Done tt, with_effects (effects samplePage ++ PreventDefault :: rest) samplePage) ∧
    ((¬ ∃ t, namedBy samplePage (substring1 "#missing") t) → rest = []) ∧
    ("#missing" = "#" → rest = []) ∧
    (rest ≠ [] → ∃ t, namedBy samplePage (substring1 "#missing") t
                      ∧ rest = [ScrollIntoView t "smooth" "start"]).
Proof.
  apply (prevent_default_is_unconditional samplePage 12 "#missing"); reflexivity.
Defined.

(** Even a link whose href is gone by the time of the click has its default
    action prevented before the listener throws. *)
Example click_without_href :
  anchorClick 9 samplePage
  = (Thrown "TypeError", with_effects [PreventDefault] samplePage).
Proof. reflexivity. Qed.

(** ** Service blocks *)

Lemma initServiceBlocksAnimation_run p :
  initServiceBlocksAnimation p
  = forEach_from 0%Z (matching ["service-block"] p) serviceBlockStep p.
Proof. reflexivity. Qed.

Lemma serviceBlockStep_run block index q :
  serviceBlockStep block index q =
  (Done tt,
   with_observed ({[ block ]} ∪ observed q)
     (with_store
        (alter (withDelay (NumUnit (PrimFloat.mul (js_number index) 0.2%float) "s"))
               block (store q)) q)).
Proof. reflexivity. Qed.

Lemma serviceBlocks_loop blocks k q :
  NoDup blocks →
  fst (forEach_from k blocks serviceBlockStep q) = Done tt ∧
  (∀ i r, blocks !! i = Some r →
     delayOf (exec (forEach_from k blocks serviceBlockStep) q) r
       = NumUnit (PrimFloat.mul (js_number (k + Z.of_nat i)) 0.2%float) "s" ∧
     r ∈ observed (exec (forEach_from k blocks serviceBlockStep) q)) ∧
  (∀ r, r ∉ blocks →
     store (exec (forEach_from k blocks serviceBlockStep) q) r = store q r) ∧
  observed q ⊆ observed (exec (forEach_from k blocks serviceBlockStep) q).
Proof.
  revert k q. induction blocks as [|x rest IH]; intros k q Hnd.
  { cbn. by repeat split. }
  apply NoDup_cons in Hnd as [Hx Hnd].
  cbn [forEach_from]. unfold exec. rewrite bind_run, serviceBlockStep_run.
  set (q1 := with_observed _ _).
  destruct (IH (k + 1)%Z q1 Hnd) as (Hd & Hdel & Hoth & Hobs).
  unfold exec in *. split; [done|]. split; [|split].
  - intros [|i] r Hi; cbn in Hi.
    + injection Hi as ->. unfold delayOf. rewrite (Hoth r Hx).
      subst q1. cbn. rewrite fn_lookup_alter. cbn.
      split; [by rewrite Z.add_0_r|]. apply Hobs. cbn. set_solver.
    + destruct (Hdel i r Hi) as [-> Ho]. split; [|done].
      by replace (k + 1 + Z.of_nat i)%Z with (k + Z.of_nat (S i))%Z by lia.
  - intros r Hr. apply not_elem_of_cons in Hr as [Hne Hr].
    rewrite (Hoth r Hr). subst q1. cbn. by rewrite fn_lookup_alter_ne.
  - etrans; [|exact Hobs]. subst q1. cbn. set_solver.
Qed.

(** C6, as the code has it.  Each service block gets the transition delay
    [`${k * 0.2}s`], [k] being its position in the list of the document's
    service blocks in tree order, and is registered with the observer. *)
Theorem service_block_delay_is_query_index (p : Page) (k : nat) (r : ref) :
  NoDup (docElements p) →
  matching ["service-block"] p !! k = Some r →
  fst (initServiceBlocksAnimation p) = Done tt ∧
  delayOf (exec initServiceBlocksAnimation p) r
    = NumUnit (PrimFloat.mul (js_number (Z.of_nat k)) 0.2%float) "s" ∧
  r ∈ observed (exec initServiceBlocksAnimation p).
Proof.
  intros Hnd Hk. unfold exec. rewrite initServiceBlocksAnimation_run.
  destruct (serviceBlocks_loop (matching ["service-block"] p) 0%Z p)
    as (Hd & Hdel & _ & _).
  { unfold matching. by apply NoDup_filter. }
  split; [done|]. destruct (Hdel k r Hk) as [Hr Ho]. unfold exec in *.
  by rewrite Hr.
Qed.

Lemma service_block_delay_is_query_index_witness :
  fst (initServiceBlocksAnimation samplePage) = Done tt ∧
  delayOf (exec initServiceBlocksAnimation samplePage) 9
    = NumUnit (PrimFloat.mul (js_number (Z.of_nat 0)) 0.2%float) "s" ∧
  9 ∈ observed (exec initServiceBlocksAnimation samplePage).
Proof.
  apply (service_block_delay_is_query_index samplePage 0 9).
  - apply (bool_decide_unpack _). vm_compute. exact I.
  - reflexivity.
Defined.

(** C6, as stated, fails.  On the sample page the only service block is
    the second child of its parent: its sibling position is 1, the delay it
    gets is [0 * 0.2]. *)
Lemma service_block_delay_not_sibling_position :
  parentElement (store samplePage 9) = Some 7 ∧
  indexOf (children (store samplePage 7)) 9 = 1%Z ∧
  delayOf (exec initServiceBlocksAnimation samplePage) 9 = NumUnit 0%float "s" ∧
  delayOf (exec initServiceBlocksAnimation samplePage) 9
    ≠ NumUnit (PrimFloat.mul (js_number 1) 0.2%float) "s".
Proof.
  split; [reflexivity|]. split; [reflexivity|]. split; [reflexivity|].
  vm_compute. intros H. discriminate H.
Qed.

(** ** Hover *)

Lemma hoverCycle_run this p :
  fst (onMouseEnter this p) = Done tt ∧
  fst (onMouseLeave this (exec (onMouseEnter this) p)) = Done tt ∧
  store (hoverCycle this p) this = atRest (store p this) ∧
  ∀ x, x ≠ this → store (hoverCycle this p) x = store p x.
Proof.
  unfold hoverCycle, onMouseLeave, onMouseEnter. js_unfold.
  split; [done|]. split; [done|]. split.
  - rewrite !fn_lookup_alter. done.
  - intros x Hne. by rewrite !fn_lookup_alter_ne by done.
Qed.

(** C7, as the code has it.  Pointer-enter followed by pointer-leave on an
    element leaves its transform at [translateY(0)] and its box shadow at
    [none], whatever they were before, and touches nothing else; so the
    cycle gives back the style it started from exactly when the two
    properties were at these resting values, and a second cycle changes
    nothing. *)
Theorem hover_cycle_sets_resting_style (p : Page) (this : ref) :
  fst (onMouseEnter this p) = Done tt ∧
  fst (onMouseLeave this (exec (onMouseEnter this) p)) = Done tt ∧
  transform (style (store (hoverCycle this p) this)) = Lit "translateY(0)" ∧
  boxShadow (style (store (hoverCycle this p) this)) = Lit "none" ∧
  transitionDelay (style (store (hoverCycle this p) this))
    = transitionDelay (style (store p this)) ∧
  opacity (style (store (hoverCycle this p) this)) = opacity (style (store p this)) ∧
  display (style (store (hoverCycle this p) this)) = display (style (store p this)) ∧
  classList (store (hoverCycle this p) this) = classList (store p this) ∧
  (∀ x, x ≠ this → store (hoverCycle this p) x = store p x) ∧
  (transform (style (store p this)) = Lit "translateY(0)" →
   boxShadow (style (store p this)) = Lit "none" →
   store (hoverCycle this p) this = store p this) ∧
  store (hoverCycle this (hoverCycle this p)) this = store (hoverCycle this p) this.
Proof.
  destruct (hoverCycle_run this p) as (He & Hl & Hs & Ho).
  destruct (hoverCycle_run this (hoverCycle this p)) as (_ & _ & Hs2 & _).
  rewrite Hs2, Hs. repeat (split; [done|]). split.
  - intros Ht Hb. destruct (store p this) as [? ? ? ? [] ? ?]. cbn in *.
    by subst.
  - reflexivity.
Qed.

(** C7, as stated, fails.  On the sample page the service block starts
    with no inline transform and no inline box shadow; after one hover cycle
    it has both. *)
Lemma hover_cycle_not_identity :
  transform (style (store samplePage 9)) = Lit "" ∧
  boxShadow (style (store samplePage 9)) = Lit "" ∧
  transform (style (store (hoverCycle 9 samplePage) 9)) = Lit "translateY(0)" ∧
  boxShadow (style (store (hoverCycle 9 samplePage) 9)) = Lit "none" ∧
  style (store (hoverCycle 9 samplePage) 9) ≠ style (store samplePage 9).
Proof. repeat (split; [reflexivity|]). intros H. discriminate H. Qed.

(** ** Timers: what is pending *)

Lemma filter_all {A} (P : A → Prop) `{∀ x, Decision (P x)} (l : list A) :
  (∀ x, x ∈ l → P x) → filter P l = l.
Proof.
  induction l as [|x l IH]; intros Hall; [done|].
  rewrite filter_cons_True by (apply Hall; left).
  f_equal. apply IH. intros y Hy. apply Hall. by right.
Qed.

Lemma omap_none {A B} (g : A → option B) (l : list A) :
  (∀ x, x ∈ l → g x = None) → omap g l = [].
Proof.
  induction l as [|x l IH]; intros Hall; [done|].
  cbn. rewrite (Hall x) by left. apply IH. intros y Hy. apply Hall. by right.
Qed.

Lemma earliest_None ts : earliest ts = None → ts = [].
Proof.
  destruct ts as [|t rest]; [done|]. cbn [earliest].
  destruct (earliest rest) as [u|]; [|done].
  destruct (due u <? due t); discriminate.
Qed.

Lemma earliest_Some ts tm :
  earliest ts = Some tm → tm ∈ ts ∧ ∀ u, u ∈ ts → due tm ≤ due u.
Proof.
  revert tm. induction ts as [|t rest IH]; intros tm; [done|].
  cbn [earliest]. destruct (earliest rest) as [u|] eqn:Hr.
  - destruct (IH u eq_refl) as [Hu Hmin].
    destruct (due u <? due t) eqn:Hlt; intros [= <-].
    + apply Nat.ltb_lt in Hlt. split; [by right|].
      intros v [->|Hv]%elem_of_cons; [lia|by apply Hmin].
    + apply Nat.ltb_ge in Hlt. split; [left|].
      intros v [->|Hv]%elem_of_cons; [lia|]. specialize (Hmin v Hv). lia.
  - intros [= <-]. apply earliest_None in Hr as ->.
    split; [left|]. by intros v ->%list_elem_of_singleton.
Qed.

(** Cancelling a timer by its identifier removes that timer and no other. *)
Lemma cancel_split (ts l1 l2 : list Timer) (tm : Timer) :
  NoDup (timerId <$> ts) → ts = (l1 ++ tm :: l2)%list →
  filter (λ u, timerId u ≠ timerId tm) ts = (l1 ++ l2)%list ∧
  (∀ u, u ∈ (l1 ++ l2)%list → timerId u ≠ timerId tm) ∧
  NoDup (timerId <$> (l1 ++ l2)%list).
Proof.
  intros Hnd ->. rewrite fmap_app, fmap_cons in Hnd.
  apply NoDup_app in Hnd as (Hn1 & Hdisj & Hn2).
  apply NoDup_cons in Hn2 as [Htm Hn2].
  assert (H1 : ∀ u, u ∈ l1 → timerId u ≠ timerId tm).
  { intros u Hu Heq. apply (Hdisj (timerId u)); [by apply list_elem_of_fmap_2|].
    rewrite Heq. left. }
  assert (H2 : ∀ u, u ∈ l2 → timerId u ≠ timerId tm).
  { intros u Hu Heq. apply Htm. rewrite <- Heq. by apply list_elem_of_fmap_2. }
  split; [|split].
  - rewrite filter_app, filter_cons_False by (intros Hne; by apply Hne).
    by rewrite !filter_all.
  - intros u [Hu|Hu]%elem_of_app; auto.
  - rewrite fmap_app. apply NoDup_app. split; [done|]. split; [|done].
    intros x Hx Hx'. apply (Hdisj x Hx). by right.
Qed.

Lemma filter_cancel_twice (ts : list Timer) i :
  filter (λ u, timerId u ≠ i) (filter (λ u, timerId u ≠ i) ts)
  = filter (λ u, timerId u ≠ i) ts.
Proof. apply filter_all. by intros u [? _]%list_elem_of_filter. Qed.

(** The parts of the page a firing timer leaves alone, and what it does to
    the timer table, the clock and the record of calls. *)
Lemma fire_fields q tm :
  timeout q = Some (timerId tm) ∨ throttleArg (callback tm) = None →
  timers (fire tm q) = filter (λ u, timerId u ≠ timerId tm) (timers q) ∧
  clock (fire tm q) = clock q `max` due tm ∧
  nextTimerId (fire tm q) = nextTimerId q ∧
  timeout (fire tm q) = timeout q ∧
  resizeCalls (fire tm q)
    = resizeCalls q ++
      from_option (λ args, [(clock q `max` due tm, args)]) [] (throttleArg (callback tm)).
Proof.
  intros Hto. unfold fire. destruct (callback tm) as [h|l|args]; cbn.
  - by rewrite app_nil_r.
  - by rewrite app_nil_r.
  - destruct Hto as [Hto|?]; [|done]. unfold later, resizeAction. js_unfold.
    rewrite Hto. cbn. by rewrite filter_cancel_twice.
Qed.

Lemma fire_spec q tm :
  timersWf q → earliest (timers q) = Some tm →
  timersWf (fire tm q) ∧
  length (timers (fire tm q)) < length (timers q) ∧
  clock (fire tm q) = due tm ∧
  resizeCalls (fire tm q)
    = resizeCalls q ++ from_option (λ e, [e]) [] (throttleEntry tm) ∧
  throttleView q = from_option (λ e, [e]) [] (throttleEntry tm) ++ throttleView (fire tm q).
Proof.
  intros [Hids Hfresh Hclock Htf Hto] [Hin Hmin]%earliest_Some.
  destruct (fire_fields q tm) as (Hts & Hck & Hnx & Htm & Hrc).
  { destruct (throttleArg (callback tm)) eqn:Ha; [left|by right].
    apply Hto; [done|]. by rewrite Ha. }
  destruct (list_elem_of_split _ _ Hin) as (l1 & l2 & Hsplit).
  destruct (cancel_split _ l1 l2 tm Hids Hsplit) as (Hfil & Hne & Hnd).
  rewrite Hfil in Hts.
  assert (Hsub : ∀ u, u ∈ timers (fire tm q) → u ∈ timers q).
  { intros u. rewrite Hts, Hsplit, !elem_of_app, elem_of_cons. tauto. }
  assert (Hck' : clock (fire tm q) = due tm).
  { rewrite Hck. specialize (Hclock tm Hin). lia. }
  split; [|split; [|split; [done|split]]].
  - constructor.
    + by rewrite Hts.
    + intros u Hu. rewrite Hnx. auto.
    + intros u Hu. rewrite Hck'. auto.
    + intros i. rewrite Htm, Hnx. auto.
    + intros u Hu. rewrite Htm. auto.
  - rewrite Hts, Hsplit, !length_app. cbn. lia.
  - rewrite Hrc. f_equal. unfold throttleEntry.
    destruct (throttleArg (callback tm)); cbn; [|done].
    do 3 f_equal. specialize (Hclock tm Hin). lia.
  - unfold throttleView. rewrite Hts, Hsplit, !omap_app. csimpl.
    destruct (throttleEntry tm) as [e|] eqn:He; csimpl; [|done].
    assert (Hnone : ∀ u, u ∈ (l1 ++ l2)%list → throttleEntry u = None).
    { intros u Hu. assert (Huq : u ∈ timers q).
      { revert Hu. rewrite Hsplit, !elem_of_app, elem_of_cons. tauto. }
      destruct (throttleEntry u) eqn:Hu'; [|done]. exfalso.
      apply (Hne u Hu).
      assert (H1 : timeout q = Some (timerId u)).
      { apply Hto; [done|]. unfold throttleEntry in Hu'.
        by destruct (throttleArg (callback u)). }
      assert (H2 : timeout q = Some (timerId tm)).
      { apply Hto; [done|]. unfold throttleEntry in He.
        by destruct (throttleArg (callback tm)). }
      congruence. }
    rewrite (omap_none throttleEntry l1), (omap_none throttleEntry l2); [done|..];
      intros u Hu; apply Hnone; apply elem_of_app; auto.
Qed.

Lemma filter_none {A} (P : A → Prop) `{∀ x, Decision (P x)} (l : list A) :
  (∀ x, x ∈ l → ¬ P x) → filter P l = [].
Proof.
  induction l as [|x l IH]; intros Hall; [done|].
  rewrite filter_cons_False by (apply Hall; left).
  apply IH. intros y Hy. apply Hall. by right.
Qed.

Lemma throttleView_due q e :
  e ∈ throttleView q → ∃ u, u ∈ timers q ∧ fst e = due u.
Proof.
  unfold throttleView. intros (u & Hu & He)%list_elem_of_omap.
  exists u. split; [done|]. unfold throttleEntry in He.
  destruct (throttleArg (callback u)); [|done]. by injection He as <-.
Qed.

Lemma throttleEntry_due tm e : throttleEntry tm = Some e → fst e = due tm.
Proof.
  unfold throttleEntry. destruct (throttleArg (callback tm)); [|done].
  by intros [= <-].
Qed.

Lemma nothing_due t q :
  timersWf q → (∀ u, u ∈ timers q → t < due u) →
  timersWf q ∧
  (∀ u, u ∈ timers q → t < due u) ∧
  clock q ≤ clock q ≤ clock q `max` t ∧
  resizeCalls q = resizeCalls q ++ filter (λ e, fst e ≤ t) (throttleView q) ∧
  throttleView q = filter (λ e, t < fst e) (throttleView q).
Proof.
  intros Hwf Hall. split; [done|]. split; [done|]. split; [lia|].
  rewrite filter_none, filter_all, app_nil_r; [done|..];
    intros e (u & Hu & ->)%throttleView_due; specialize (Hall u Hu); lia.
Qed.

(** With as much fuel as there are pending timers, [fireDue] fires every
    timer that is due: the calls of [later] that were due are made, at
    their due times, and the others stay pending. *)
Lemma fireDue_spec n t q :
  timersWf q → length (timers q) ≤ n →
  timersWf (fireDue n t q) ∧
  (∀ u, u ∈ timers (fireDue n t q) → t < due u) ∧
  clock q ≤ clock (fireDue n t q) ≤ clock q `max` t ∧
  resizeCalls (fireDue n t q)
    = resizeCalls q ++ filter (λ e, fst e ≤ t) (throttleView q) ∧
  throttleView (fireDue n t q) = filter (λ e, t < fst e) (throttleView q).
Proof.
  revert q. induction n as [|n IH]; intros q Hwf Hlen.
  { cbn [fireDue]. apply nothing_due; [done|].
    destruct (timers q); [|cbn in Hlen; lia]. by intros u ?%elem_of_nil. }
  cbn [fireDue]. destruct (earliest (timers q)) as [tm|] eqn:He.
  - destruct (earliest_Some _ _ He) as [Hin Hmin].
    destruct (due tm <=? t) eqn:Hdue.
    + apply Nat.leb_le in Hdue.
      destruct (fire_spec q tm Hwf He) as (Hwf' & Hlen' & Hck & Hrc & Htv).
      destruct (IH (fire tm q) Hwf') as (H1 & H2 & H3 & H4 & H5); [lia|].
      pose proof (wf_clock q Hwf tm Hin) as Hc.
      split; [done|]. split; [done|]. split; [lia|].
      rewrite H4, H5, Hrc, Htv, <- app_assoc, !filter_app.
      destruct (throttleEntry tm) as [e|] eqn:Hte; cbn [from_option]; [|done].
      apply throttleEntry_due in Hte.
      rewrite filter_cons_True by (cbn; lia).
      rewrite (filter_cons_False (λ e, t < fst e)) by (cbn; lia).
      by rewrite !filter_nil.
    + apply Nat.leb_gt in Hdue. apply nothing_due; [done|].
      intros u Hu. specialize (Hmin u Hu). lia.
  - apply earliest_None in He. apply nothing_due; [done|].
    rewrite He. by intros u ?%elem_of_nil.
Qed.

Lemma elapseTo_spec t q :
  timersWf q →
  timersWf (elapseTo t q) ∧
  (∀ u, u ∈ timers (elapseTo t q) → t < due u) ∧
  clock (elapseTo t q) = clock q `max` t ∧
  resizeCalls (elapseTo t q)
    = resizeCalls q ++ filter (λ e, fst e ≤ t) (throttleView q) ∧
  throttleView (elapseTo t q) = filter (λ e, t < fst e) (throttleView q).
Proof.
  intros Hwf. unfold elapseTo.
  destruct (fireDue_spec (length (timers q)) t q Hwf) as (Hwf' & Hdue & Hck & Hrc & Htv);
    [done|].
  set (q' := fireDue _ t q) in *.
  split; [|split; [done|split; [cbn; lia|by split]]].
  destruct Hwf' as [? ? Hc ? ?]. constructor; cbn; try done.
  intros u Hu. specialize (Hc u Hu). specialize (Hdue u Hu). lia.
Qed.

(** ** The resize listener *)

Lemma NoDup_ids_filter (P : Timer → Prop) `{∀ x, Decision (P x)} (ts : list Timer) :
  NoDup (timerId <$> ts) → NoDup (timerId <$> filter P ts).
Proof.
  intros Hnd. eapply sublist_NoDup; [exact Hnd|].
  apply fmap_sublist, sublist_filter.
Qed.

Lemma onResize_run ev q :
  onResize ev q =
  (Done tt,
   with_timeout (Some (nextTimerId q))
     (with_nextTimerId (S (nextTimerId q))
        (with_timers
           (cleared q ++ [mkTimer (nextTimerId q) (clock q + 250) (ThrottleLater ev)]) q))).
Proof.
  unfold onResize, throttle, executedFunction, setTimeout, cleared. js_unfold.
  by destruct (timeout q).
Qed.

Lemma cleared_spec q u :
  timersWf q → u ∈ cleared q → u ∈ timers q ∧ throttleArg (callback u) = None.
Proof.
  intros Hwf Hu. unfold cleared in Hu.
  assert (Huq : u ∈ timers q).
  { destruct (timeout q); [by apply list_elem_of_filter in Hu as [_ ?]|done]. }
  split; [done|].
  destruct (throttleArg (callback u)) eqn:Ha; [|done]. exfalso.
  assert (Hto : timeout q = Some (timerId u)).
  { apply (wf_timeout q Hwf u Huq). by rewrite Ha. }
  rewrite Hto in Hu. by apply list_elem_of_filter in Hu as [Hne _].
Qed.

(** Every resize event resets the pending timer: whatever call of [later]
    was pending is cancelled, and exactly one is pending afterwards, due
    250 ms after the event. *)
Lemma onResize_spec ev q :
  timersWf q →
  fst (onResize ev q) = Done tt ∧
  timersWf (exec (onResize ev) q) ∧
  clock (exec (onResize ev) q) = clock q ∧
  resizeCalls (exec (onResize ev) q) = resizeCalls q ∧
  throttleView (exec (onResize ev) q) = [(clock q + 250, ev)].
Proof.
  intros Hwf. unfold exec. rewrite onResize_run. cbn [fst snd].
  split; [done|].
  assert (Hsub : ∀ u, u ∈ cleared q → u ∈ timers q ∧ throttleArg (callback u) = None)
    by (intros u; by apply cleared_spec).
  split; [|split; [done|split; [done|]]].
  - constructor; cbn.
    + rewrite fmap_app. apply NoDup_app. split; [|split].
      * unfold cleared. destruct (timeout q);
          [apply NoDup_ids_filter|]; apply (wf_ids q Hwf).
      * intros i (u & -> & Hu)%list_elem_of_fmap Heq%list_elem_of_singleton.
        cbn in Heq. destruct (Hsub u Hu) as [Huq _].
        pose proof (wf_fresh q Hwf u Huq). lia.
      * apply NoDup_singleton.
    + intros u [Hu| ->%list_elem_of_singleton]%elem_of_app; cbn; [|lia].
      destruct (Hsub u Hu) as [Huq _]. pose proof (wf_fresh q Hwf u Huq). lia.
    + intros u [Hu| ->%list_elem_of_singleton]%elem_of_app; cbn; [|lia].
      destruct (Hsub u Hu) as [Huq _]. by apply (wf_clock q Hwf).
    + intros i [= <-]. lia.
    + intros u [Hu| ->%list_elem_of_singleton]%elem_of_app; cbn; [|done].
      destruct (Hsub u Hu) as [Huq Hn]. rewrite Hn.
      pose proof (wf_fresh q Hwf u Huq). split.
      * intros [= Heq]. lia.
      * by intros [? ?].
  - unfold throttleView. cbn. rewrite omap_app.
    rewrite (omap_none throttleEntry (cleared q)); [done|].
    intros u Hu. destruct (Hsub u Hu) as [_ Hn]. unfold throttleEntry. by rewrite Hn.
Qed.

Lemma resizeAfter_spec gap ev q :
  timersWf q →
  timersWf (resizeAfter gap ev q) ∧
  clock (resizeAfter gap ev q) = clock q + gap ∧
  resizeCalls (resizeAfter gap ev q)
    = resizeCalls q ++ filter (λ e, fst e ≤ clock q + gap) (throttleView q) ∧
  throttleView (resizeAfter gap ev q) = [(clock q + gap + 250, ev)].
Proof.
  intros Hwf. unfold resizeAfter.
  destruct (elapseTo_spec (clock q + gap) q Hwf) as (Hwf1 & _ & Hck & Hrc & _).
  destruct (onResize_spec ev _ Hwf1) as (_ & Hwf2 & Hck2 & Hrc2 & Htv2).
  rewrite Hck2, Hrc2, Htv2, Hck, Hrc.
  replace (clock q `max` (clock q + gap)) with (clock q + gap) by lia. done.
Qed.

Lemma trailingCall_snoc wait cur last :
  trailingCall wait (cur ++ [last]) = Some (fst last + wait, snd last).
Proof. unfold trailingCall. by rewrite last_snoc. Qed.

Lemma run_burstsFrom rest q cur last T :
  timersWf q →
  throttleView q = [(fst last + 250, snd last)] →
  clock q = fst last →
  clock (resizeRun rest q) + 250 ≤ T →
  resizeCalls (elapseTo T (resizeRun rest q))
    = resizeCalls q ++
      omap (trailingCall 250) (burstsFrom 250 cur last (arrivals (clock q) rest)).
Proof.
  revert q cur last. induction rest as [|[gap ev] rest IH]; intros q cur last Hwf Htv Hck HT.
  - cbn [resizeRun foldl arrivals burstsFrom omap list_omap] in *.
    destruct (elapseTo_spec T q Hwf) as (_ & _ & _ & Hrc & _).
    rewrite Hrc, Htv, trailingCall_snoc.
    rewrite filter_cons_True by (cbn; lia). done.
  - cbn [resizeRun foldl arrivals burstsFrom fst snd] in *.
    fold (resizeRun rest (resizeAfter gap ev q)) in *.
    destruct (resizeAfter_spec gap ev q Hwf) as (Hwf' & Hck' & Hrc' & Htv').
    rewrite (IH (resizeAfter gap ev q)
               (if clock q + gap <? fst last + 250 then cur ++ [last] else [])
               (clock q + gap, ev)); [|done|by rewrite Htv'|done|done].
    rewrite Hrc', Htv, Hck', <- app_assoc. f_equal.
    destruct (clock q + gap <? fst last + 250) eqn:Hlt.
    + apply Nat.ltb_lt in Hlt. rewrite filter_cons_False by (cbn; lia). done.
    + apply Nat.ltb_ge in Hlt. rewrite filter_cons_True by (cbn; lia).
      cbn [omap list_omap]. by rewrite trailingCall_snoc.
Qed.

Lemma burstsFrom_calls wait cur last rest :
  length (omap (trailingCall wait) (burstsFrom wait cur last rest))
  = length (burstsFrom wait cur last rest).
Proof.
  revert cur last. induction rest as [|e rest IH]; intros cur last; cbn [burstsFrom].
  - cbn. by rewrite trailingCall_snoc.
  - destruct (fst e <? fst last + wait); [apply IH|].
    cbn. rewrite trailingCall_snoc. cbn. by rewrite IH.
Qed.

Lemma burstsFrom_concat wait cur last rest :
  concat (burstsFrom wait cur last rest) = cur ++ last :: rest.
Proof.
  revert cur last. induction rest as [|e rest IH]; intros cur last; cbn [burstsFrom].
  - cbn. by rewrite app_nil_r.
  - destruct (fst e <? fst last + wait).
    + rewrite IH. by rewrite <- app_assoc.
    + cbn. rewrite IH. by rewrite <- app_assoc.
Qed.

(** The bursts are consecutive groups of the events, in order. *)
Lemma bursts_concat wait evs : concat (bursts wait evs) = evs.
Proof. destruct evs as [|e rest]; [done|]. apply (burstsFrom_concat wait [] e rest). Qed.

(** C9. The resize listener is a trailing-edge throttle of 250 ms.  Every
    resize event cancels the pending call and schedules one 250 ms after
    itself; and for any sequence of resize events, once the page has been
    quiet for 250 ms the wrapped action has run exactly once per burst,
    250 ms after the last event of the burst and with that event as its
    argument, a burst being a run of events each less than 250 ms after the
    one before. *)
Theorem resize_throttle_is_trailing_edge (p : Page) (evs : list (nat * nat)) (T : nat) :
  timersWf p →
  throttleView p = [] →
  clock (resizeRun evs p) + 250 ≤ T →
  (∀ q ev, timersWf q →
     throttleView (exec (onResize ev) q) = [(clock q + 250, ev)] ∧
     resizeCalls (exec (onResize ev) q) = resizeCalls q) ∧
  resizeCalls (elapseTo T (resizeRun evs p))
    = resizeCalls p ++ omap (trailingCall 250) (bursts 250 (arrivals (clock p) evs)) ∧
  length (resizeCalls (elapseTo T (resizeRun evs p)))
    = length (resizeCalls p) + length (bursts 250 (arrivals (clock p) evs)).
Proof.
  intros Hwf Htv HT. split.
  { intros q ev Hq. by destruct (onResize_spec ev q Hq) as (_ & _ & _ & ? & ?). }
  assert (Hcalls : resizeCalls (elapseTo T (resizeRun evs p))
    = resizeCalls p ++ omap (trailingCall 250) (bursts 250 (arrivals (clock p) evs))).
  { destruct evs as [|[gap ev] rest].
    - cbn [resizeRun foldl arrivals bursts omap list_omap] in *.
      destruct (elapseTo_spec T p Hwf) as (_ & _ & _ & Hrc & _).
      by rewrite Hrc, Htv.
    - cbn [resizeRun foldl arrivals bursts fst snd] in *.
      fold (resizeRun rest (resizeAfter gap ev p)) in *.
      destruct (resizeAfter_spec gap ev p Hwf) as (Hwf' & Hck' & Hrc' & Htv').
      rewrite (run_burstsFrom rest (resizeAfter gap ev p) [] (clock p + gap, ev));
        [|done|by rewrite Htv'|done|done].
      by rewrite Hrc', Htv, Hck', filter_nil, app_nil_r. }
  split; [done|]. rewrite Hcalls, length_app. f_equal.
  destruct (arrivals (clock p) evs) as [|e rest]; [done|].
  apply burstsFrom_calls.
Qed.

Example resize_sample :
  arrivals 0 [(10, 1); (100, 2); (300, 3); (50, 4)]
    = [(10, 1); (110, 2); (410, 3); (460, 4)] ∧
  bursts 250 [(10, 1); (110, 2); (410, 3); (460, 4)]
    = [[(10, 1); (110, 2)]; [(410, 3); (460, 4)]] ∧
  resizeCalls (elapseTo 1000 (resizeRun [(10, 1); (100, 2); (300, 3); (50, 4)] samplePage))
    = [(360, 2); (710, 4)].
Proof. vm_compute. done. Qed.

Lemma samplePage_timersWf : timersWf samplePage.
Proof.
  constructor; cbn; try done.
  - apply NoDup_nil_2.
  - by intros tm ?%elem_of_nil.
  - by intros tm ?%elem_of_nil.
  - by intros tm ?%elem_of_nil.
Defined.

Lemma resize_throttle_is_trailing_edge_witness :
  (∀ q ev, timersWf q →
     throttleView (exec (onResize ev) q) = [(clock q + 250, ev)] ∧
     resizeCalls (exec (onResize ev) q) = resizeCalls q) ∧
  resizeCalls (elapseTo 1000 (resizeRun [(10, 1); (100, 2); (300, 3); (50, 4)] samplePage))
    = resizeCalls samplePage ++
      omap (trailingCall 250)
           (bursts 250 (arrivals (clock samplePage) [(10, 1); (100, 2); (300, 3); (50, 4)])) ∧
  length (resizeCalls
            (elapseTo 1000 (resizeRun [(10, 1); (100, 2); (300, 3); (50, 4)] samplePage)))
    = length (resizeCalls samplePage) +
      length (bursts 250 (arrivals (clock samplePage) [(10, 1); (100, 2); (300, 3); (50, 4)])).
Proof.
  apply (resize_throttle_is_trailing_edge samplePage
           [(10, 1); (100, 2); (300, 3); (50, 4)] 1000).
  - exact samplePage_timersWf.
  - reflexivity.
  - vm_compute. lia.
Defined.

(** ** Window load *)

Lemma firstMatch_addLoaded p b :
  firstMatch "loader" (with_store (alter addLoaded b (store p)) p) = firstMatch "loader" p.
Proof.
  unfold firstMatch. f_equal. apply list_filter_iff. intros r.
  unfold hasClass. cbn. unfold alter, fn_alter.
  destruct (decide (b = r)) as [->|]; [|done]. cbn.
  by rewrite tokens_contains_add_ne.
Qed.

(** [onLoad] in closed form, on a page that has a body. *)
Lemma onLoad_run p b :
  docBody p = Some b →
  onLoad p =
  let p1 := with_store (alter addLoaded b (store p)) p in
  match firstMatch "loader" p with
  | Some l =>
      (Done tt,
       with_nextTimerId (S (nextTimerId p))
         (with_timers (timers p ++ [mkTimer (nextTimerId p) (clock p + 300) (LoaderHide l)])
            (with_store (alter fadeOut l (store p1)) p1)))
  | None => (Done tt, p1)
  end.
Proof.
  intros Hb. unfold onLoad, querySelector, setTimeout. js_unfold. rewrite Hb. cbn zeta.
  fold addLoaded. rewrite firstMatch_addLoaded.
  by destruct (firstMatch "loader" p).
Qed.

Lemma fire_display tm q l :
  (callback tm = LoaderHide l → displayOf (fire tm q) l = Lit "none") ∧
  (displayOf q l = Lit "none" → displayOf (fire tm q) l = Lit "none") ∧
  (callback tm ≠ LoaderHide l → displayOf (fire tm q) l = displayOf q l).
Proof.
  unfold fire, displayOf. destruct (callback tm) as [h|l'|args]; cbn.
  - rewrite (alter_proj (λ e, display (style e))) by done. by repeat split.
  - unfold alter, fn_alter. destruct (decide (l' = l)) as [->|Hne]; cbn.
    + by repeat split.
    + repeat split; try done. intros [= ?]. done.
  - unfold later, resizeAction. js_unfold. by destruct (timeout q); repeat split.
Qed.

Lemma distinct_ids (ts : list Timer) (u v : Timer) :
  NoDup (timerId <$> ts) → u ∈ ts → v ∈ ts → u ≠ v → timerId u ≠ timerId v.
Proof.
  intros Hnd Hu Hv Hne.
  destruct (list_elem_of_split _ _ Hv) as (l1 & l2 & Hsplit).
  destruct (cancel_split ts l1 l2 v Hnd Hsplit) as (_ & Hids & _).
  apply Hids. revert Hu. rewrite Hsplit, !elem_of_app, elem_of_cons. naive_solver.
Qed.

(** A pending [LoaderHide] that is due gets fired, and nothing shows the
    loader again. *)
Lemma fireDue_hides n t q l :
  timersWf q → length (timers q) ≤ n →
  displayOf q l = Lit "none" ∨
    (∃ tm, tm ∈ timers q ∧ callback tm = LoaderHide l ∧ due tm ≤ t) →
  displayOf (fireDue n t q) l = Lit "none".
Proof.
  revert q. induction n as [|n IH]; intros q Hwf Hlen Hinv.
  { cbn. destruct Hinv as [?|(tm & Hin & _)]; [done|].
    destruct (timers q); [by apply elem_of_nil in Hin|cbn in Hlen; lia]. }
  cbn [fireDue]. destruct (earliest (timers q)) as [tm|] eqn:He.
  - destruct (earliest_Some _ _ He) as [Hin Hmin].
    destruct (due tm <=? t) eqn:Hdue.
    + destruct (fire_spec q tm Hwf He) as (Hwf' & Hlen' & _).
      destruct (fire_display tm q l) as (Hfired & Hkeep & _).
      apply IH; [done|lia|].
      destruct Hinv as [Hd|(tm0 & Hin0 & Hcb & Hdue0)]; [left; auto|].
      destruct (decide (tm0 = tm)) as [->|Hne]; [left; auto|].
      right. exists tm0. split; [|done].
      destruct (fire_fields q tm) as (Hts & _).
      { destruct (throttleArg (callback tm)) eqn:Ha; [left|by right].
        apply (wf_timeout q Hwf tm Hin). by rewrite Ha. }
      rewrite Hts. apply list_elem_of_filter. split; [|done].
      by apply (distinct_ids (timers q)); [apply (wf_ids q Hwf)|..].
    + apply Nat.leb_gt in Hdue.
      destruct Hinv as [?|(tm0 & Hin0 & _ & Hdue0)]; [done|].
      specialize (Hmin tm0 Hin0). lia.
  - apply earliest_None in He.
    destruct Hinv as [?|(tm0 & Hin0 & _)]; [done|].
    rewrite He in Hin0. by apply elem_of_nil in Hin0.
Qed.

Lemma setTimeout_wf (cb : Callback) wait p :
  timersWf p → throttleArg cb = None → timersWf (snd (setTimeout cb wait p)).
Proof.
  intros [Hids Hfresh Hclock Htf Hto] Hcb. unfold setTimeout. constructor; cbn.
  - rewrite fmap_app. apply NoDup_app. split; [done|]. split; [|apply NoDup_singleton].
    intros i (u & -> & Hu)%list_elem_of_fmap Heq%list_elem_of_singleton.
    cbn in Heq. specialize (Hfresh u Hu). lia.
  - intros u [Hu| ->%list_elem_of_singleton]%elem_of_app; cbn; [|lia].
    specialize (Hfresh u Hu). lia.
  - intros u [Hu| ->%list_elem_of_singleton]%elem_of_app; cbn; [auto|lia].
  - intros i Hi. specialize (Htf i Hi). lia.
  - intros u [Hu| ->%list_elem_of_singleton]%elem_of_app; cbn; [auto|].
    rewrite Hcb. split; [|by intros [? ?]].
    intros Hi. specialize (Htf _ Hi). lia.
Qed.

Lemma timersWf_with_store f p : timersWf p → timersWf (with_store f p).
Proof. intros [? ? ? ? ?]. by constructor. Qed.

(** C8. On window load, on a page that has a body: the listener returns
    and the body carries the [loaded] class; if the document has a loader
    element, the first one gets opacity [0] at once while its display is
    left as it was, a timer is set 300 ms ahead, and once those 300 ms have
    passed its display is [none] (and, on a page with no other timer
    pending, not before); if it has none, the page differs from the one
    before only in the class added to the body. *)
Theorem window_load_marks_body_and_hides_loader (p : Page) (b : ref) :
  docBody p = Some b →
  timersWf p →
  fst (onLoad p) = Done tt ∧
  hasClass (exec onLoad p) "loaded" b = true ∧
  (∀ l, firstMatch "loader" p = Some l →
     opacity (style (store (exec onLoad p) l)) = Lit "0" ∧
     displayOf (exec onLoad p) l = displayOf p l ∧
     timers (exec onLoad p)
       = timers p ++ [mkTimer (nextTimerId p) (clock p + 300) (LoaderHide l)] ∧
     (∀ t, clock p + 300 ≤ t → displayOf (elapseTo t (exec onLoad p)) l = Lit "none") ∧
     (timers p = [] → ∀ t, t < clock p + 300 →
        displayOf (elapseTo t (exec onLoad p)) l = displayOf p l)) ∧
  (firstMatch "loader" p = None →
     exec onLoad p = with_store (alter addLoaded b (store p)) p).
Proof.
  intros Hb Hwf. unfold exec. rewrite (onLoad_run p b Hb). cbn zeta.
  destruct (firstMatch "loader" p) as [l0|] eqn:Hl; cbn [fst snd].
  - split; [done|]. split.
    { unfold hasClass. cbn. rewrite (alter_proj classList) by done.
      rewrite fn_lookup_alter. apply tokens_contains_add_same. }
    split; [|done]. intros l [= <-].
    set (q := with_nextTimerId _ _).
    assert (Hdisp : displayOf q l0 = displayOf p l0).
    { unfold displayOf. subst q. cbn.
      by rewrite !(alter_proj (λ e, display (style e))). }
    assert (Hq : timersWf q).
    { apply (setTimeout_wf (LoaderHide l0) 300
               (with_store (alter fadeOut l0 (alter addLoaded b (store p))) p));
        [by apply timersWf_with_store|done]. }
    split; [by subst q; cbn; rewrite fn_lookup_alter|].
    split; [done|]. split; [done|]. split.
    + intros t Ht. unfold elapseTo.
      change (displayOf (fireDue (length (timers q)) t q) l0 = Lit "none").
      apply fireDue_hides; [done..|]. right.
      exists (mkTimer (nextTimerId p) (clock p + 300) (LoaderHide l0)).
      split; [|done]. subst q. cbn. apply elem_of_app. right. left.
    + intros Hnil t Ht. unfold elapseTo. rewrite <- Hdisp.
      assert (Hts : timers q = [mkTimer (nextTimerId p) (clock p + 300) (LoaderHide l0)]).
      { subst q. cbn. by rewrite Hnil. }
      rewrite Hts. cbn [length fireDue]. rewrite Hts. cbn [earliest due].
      by rewrite (proj2 (Nat.leb_gt _ _) Ht).
  - split; [done|]. split; [|done].
    unfold hasClass. cbn. rewrite fn_lookup_alter. apply tokens_contains_add_same.
Qed.

Lemma window_load_marks_body_and_hides_loader_witness :
  fst (onLoad samplePage) = Done tt ∧
  hasClass (exec onLoad samplePage) "loaded" 1 = true ∧
  (∀ l, firstMatch "loader" samplePage = Some l →
     opacity (style (store (exec onLoad samplePage) l)) = Lit "0" ∧
     displayOf (exec onLoad samplePage) l = displayOf samplePage l ∧
     timers (exec onLoad samplePage)
       = timers samplePage ++
         [mkTimer (nextTimerId samplePage) (clock samplePage + 300) (LoaderHide l)] ∧
     (∀ t, clock samplePage + 300 ≤ t →
        displayOf (elapseTo t (exec onLoad samplePage)) l = Lit "none") ∧
     (timers samplePage = [] → ∀ t, t < clock samplePage + 300 →
        displayOf (elapseTo t (exec onLoad samplePage)) l = displayOf samplePage l)) ∧
  (firstMatch "loader" samplePage = None →
     exec onLoad samplePage = with_store (alter addLoaded 1 (store samplePage)) samplePage).
Proof.
  apply (window_load_marks_body_and_hides_loader samplePage 1).
  - reflexivity.
  - exact samplePage_timersWf.
Defined.

Example window_load_sample :
  firstMatch "loader" samplePage = Some 11 ∧
  opacity (style (store (exec onLoad samplePage) 11)) = Lit "0" ∧
  displayOf (exec onLoad samplePage) 11 = Lit "" ∧
  displayOf (elapseTo 299 (exec onLoad samplePage)) 11 = Lit "" ∧
  displayOf (elapseTo 300 (exec onLoad samplePage)) 11 = Lit "none".
Proof. vm_compute. done. Qed.

(** ** Registration and trigger *)

(** The items are registered on the sample page, the list is reordered,
    and then the last item of the original order triggers: its delay is
    the one of its place at that time, the first. *)
Example delay_follows_the_tree_at_trigger :
  6 ∈ observed (exec onDOMContentLoaded samplePage) ∧
  indexOf (children (store samplePage 3)) 6 = 2%Z ∧
  indexOf (children (store (reverseList samplePage) 3)) 6 = 0%Z ∧
  delayOf (deliver [mkEntry 6 true] (reverseList (exec onDOMContentLoaded samplePage))) 6
    = NumUnit 0%float "s" ∧
  delayOf (deliver [mkEntry 6 true] (exec onDOMContentLoaded samplePage)) 6
    = NumUnit 0.4%float "s".
Proof.
  split; [apply (bool_decide_unpack _); vm_compute; exact I|].
  vm_compute. done.
Qed.

(** What page-ready leaves behind on the sample page: the hero timer, the
    one service block with its delay, the observed elements and the
    listeners. *)
Example page_ready_sample :
  fst (onDOMContentLoaded samplePage) = Done tt ∧
  timers (exec onDOMContentLoaded samplePage) = [mkTimer 0 300 (HeroReveal 2)] ∧
  elements (observed (exec onDOMContentLoaded samplePage)) ≡ₚ [4; 5; 6; 9] ∧
  listeners (exec onDOMContentLoaded samplePage)
    = [(10, OnClick); (12, OnClick); (9, OnMouseEnter); (9, OnMouseLeave)] ∧
  animated (elapseTo 300 (exec onDOMContentLoaded samplePage)) 2 = true.
Proof.
  split; [reflexivity|]. split; [reflexivity|]. split; [|split; reflexivity].
  apply (bool_decide_unpack _). vm_compute. exact I.
Qed.

(** * Beyond the trigger: the listeners together *)

(** ** Relations that handlers keep *)

Section Preserved.
Variable R : Page → Page → Prop.
Hypothesis R_refl : ∀ p, R p p.
Hypothesis R_trans : ∀ p q r, R p q → R q r → R p r.

Lemma preserved_ret {A} (a : A) : preserved R (ret a).
Proof. intros p. apply R_refl. Qed.

Lemma preserved_throw {A} err : preserved R (@throw A err).
Proof. intros p. apply R_refl. Qed.

Lemma preserved_gets {A} (f : Page → A) : preserved R (gets f).
Proof. intros p. apply R_refl. Qed.

Lemma preserved_modify (f : Page → Page) :
  (∀ p, R p (f p)) → preserved R (modify f).
Proof. intros Hf p. apply Hf. Qed.

Lemma preserved_bind {A B} (m : JS A) (k : A → JS B) :
  preserved R m → (∀ a, preserved R (k a)) → preserved R (bind m k).
Proof.
  intros Hm Hk p. unfold bind. specialize (Hm p).
  destruct (m p) as [[a|err] q]; cbn in *; [|done].
  eapply R_trans; [exact Hm|apply Hk].
Qed.

Lemma preserved_forEach_from {A} i (xs : list A) (f : A → Z → JS unit) :
  (∀ x j, preserved R (f x j)) → preserved R (forEach_from i xs f).
Proof.
  intros Hf. revert i. induction xs as [|x xs IH]; intros i; cbn [forEach_from].
  - apply preserved_ret.
  - apply preserved_bind; [apply Hf|]. intros _. apply IH.
Qed.

Lemma preserved_forEach {A} (xs : list A) (f : A → JS unit) :
  (∀ x, preserved R (f x)) → preserved R (forEach xs f).
Proof. intros Hf. apply preserved_forEach_from. intros x _. apply Hf. Qed.
End Preserved.

(** Walks a handler down to its reads and writes. *)
Ltac unfold_handlers :=
  unfold onDOMContentLoaded, onLoad, onResize, throttle, executedFunction, later,
    resizeAction, anchorClick, onMouseEnter, onMouseLeave, initHeroAnimation,
    initServiceBlocksAnimation, initListItemsAnimation,
    initGeneralSectionAnimations, initSmoothScrolling, initHoverEffects,
    handleIntersection, handleEntry, addStaggeredAnimation, runCallback,
    querySelector, querySelectorAll, queryHashLinks, getElementById,
    classList_add, classList_contains, setStyle, alterElement, observe,
    unobserve, emit, addEventListener, clearTimeout, forEach, forEachi.

Ltac preserved_walk Hrefl Htrans leaf :=
  unfold_handlers;
  repeat first
    [ apply (preserved_bind _ Htrans); [|intros ?]
    | apply (preserved_forEach_from _ Hrefl Htrans); intros ? ?
    | apply (preserved_ret _ Hrefl)
    | apply (preserved_throw _ Hrefl)
    | apply (preserved_gets _ Hrefl)
    | lazymatch goal with
      | |- preserved _ (match ?x with _ => _ end) => destruct x
      end
    | (apply preserved_modify; intros ?; cbn; leaf)
    | (intros ?; cbn; leaf) ].

(** ** Nothing is taken from the document *)

Lemma grows_refl p : grows p p.
Proof. by repeat split. Qed.

Lemma grows_trans p q r : grows p q → grows q r → grows p r.
Proof.
  intros (Hd & Hb & Hx) (Hd' & Hb' & Hx').
  split; [congruence|]. split; [congruence|]. intros x.
  destruct (Hx x) as (H1 & H2 & H3 & H4 & H5 & H6).
  destruct (Hx' x) as (H1' & H2' & H3' & H4' & H5' & H6').
  repeat split; try congruence. auto.
Qed.

Lemma tokens_add_elem cl tok tok' : tok ∈ cl → tok ∈ tokens_add cl tok'.
Proof.
  intros H. unfold tokens_add. destruct (tokens_contains cl tok'); [done|].
  apply elem_of_app. by left.
Qed.

Lemma grows_alter p q g r :
  gentle g → docElements q = docElements p → docBody q = docBody p →
  store q = alter g r (store p) → grows p q.
Proof.
  intros Hg Hd Hb Hs. split; [done|]. split; [done|]. intros x. rewrite Hs.
  unfold alter, fn_alter. destruct (decide (r = x)) as [->|]; [apply Hg|done].
Qed.

Lemma grows_same_store p q :
  docElements q = docElements p → docBody q = docBody p → store q = store p →
  grows p q.
Proof. intros Hd Hb Hs. split; [done|]. split; [done|]. intros x. by rewrite Hs. Qed.

Ltac grows_leaf :=
  first
    [ apply grows_refl
    | apply grows_same_store; reflexivity
    | eapply grows_alter; [|reflexivity|reflexivity|reflexivity];
      intros e; repeat split; try reflexivity; cbn; intros tok Htok;
      first [exact Htok | by apply tokens_add_elem]
    | match goal with |- context [match ?x with _ => _ end] => destruct x end;
      apply grows_same_store; reflexivity ].

Lemma handleIntersection_grows batch : preserved grows (handleIntersection batch).
Proof. preserved_walk grows_refl grows_trans grows_leaf. Qed.

Lemma listeners_grow :
  preserved grows onDOMContentLoaded ∧
  preserved grows onLoad ∧
  (∀ ev, preserved grows (onResize ev)) ∧
  (∀ link, preserved grows (anchorClick link)) ∧
  (∀ block, preserved grows (onMouseEnter block)) ∧
  (∀ block, preserved grows (onMouseLeave block)) ∧
  (∀ cb, preserved grows (runCallback cb)).
Proof.
  split_and!; intros; try destruct cb;
    preserved_walk grows_refl grows_trans grows_leaf.
Qed.

Lemma fire_grows tm p : grows p (fire tm p).
Proof.
  unfold fire. cbn zeta. destruct listeners_grow as (_ & _ & _ & _ & _ & _ & Hcb).
  eapply grows_trans; [|apply Hcb]. by apply grows_same_store.
Qed.

Lemma fireDue_grows n t p : grows p (fireDue n t p).
Proof.
  revert p. induction n as [|n IH]; intros p; cbn [fireDue]; [apply grows_refl|].
  destruct (earliest (timers p)) as [tm|]; [|apply grows_refl].
  destruct (due tm <=? t); [|apply grows_refl].
  eapply grows_trans; [apply fire_grows|apply IH].
Qed.

Lemma elapseTo_grows t p : grows p (elapseTo t p).
Proof.
  unfold elapseTo. eapply grows_trans; [apply fireDue_grows|].
  by apply grows_same_store.
Qed.

Lemma react_grows e p : grows p (react e p).
Proof.
  destruct listeners_grow as (H1 & H2 & H3 & H4 & H5 & H6 & _).
  destruct e; cbn [react]; unfold deliver, exec;
    [apply H1|apply H2|apply handleIntersection_grows|apply H4|apply H5|apply H6
    |apply H3|apply elapseTo_grows].
Qed.

Lemma reactAll_grows events p : grows p (reactAll events p).
Proof.
  revert p. induction events as [|e events IH]; intros p; [apply grows_refl|].
  cbn [reactAll foldl]. eapply grows_trans; [apply react_grows|apply IH].
Qed.

(** X11. Whatever events reach the page, in whatever order, the script
    leaves the document as it found it: the same elements in the same
    order, the same body, and for every element the same tag, id, href,
    parent element and children. *)
Theorem document_is_never_restructured (events : list Event) (p : Page) :
  docElements (reactAll events p) = docElements p ∧
  docBody (reactAll events p) = docBody p ∧
  ∀ x, tagName (store (reactAll events p) x) = tagName (store p x) ∧
       idAttr (store (reactAll events p) x) = idAttr (store p x) ∧
       hrefAttr (store (reactAll events p) x) = hrefAttr (store p x) ∧
       parentElement (store (reactAll events p) x) = parentElement (store p x) ∧
       children (store (reactAll events p) x) = children (store p x).
Proof.
  destruct (reactAll_grows events p) as (Hd & Hb & Hx).
  split; [done|]. split; [done|]. intros x.
  destruct (Hx x) as (H1 & H2 & H3 & H4 & H5 & _). by repeat split.
Qed.

(** X10. No listener and no timer of the script ever removes a class: a
    class an element has stays on it through any sequence of events. *)
Theorem classes_are_never_removed
    (events : list Event) (p : Page) (x : ref) (tok : string) :
  tok ∈ classList (store p x) →
  tok ∈ classList (store (reactAll events p) x).
Proof.
  destruct (reactAll_grows events p) as (_ & _ & Hx).
  destruct (Hx x) as (_ & _ & _ & _ & _ & Hc). apply Hc.
Qed.

(** ** The observation set *)

Lemma shrinks_refl p : shrinks p p.
Proof. unfold shrinks. done. Qed.

Lemma shrinks_trans p q r : shrinks p q → shrinks q r → shrinks p r.
Proof. unfold shrinks. set_solver. Qed.

Ltac shrinks_leaf :=
  unfold shrinks;
  repeat match goal with |- context [match ?x with _ => _ end] => destruct x end;
  cbn; set_solver.

Lemma listeners_shrink :
  (∀ batch, preserved shrinks (handleIntersection batch)) ∧
  preserved shrinks onLoad ∧
  (∀ ev, preserved shrinks (onResize ev)) ∧
  (∀ link, preserved shrinks (anchorClick link)) ∧
  (∀ block, preserved shrinks (onMouseEnter block)) ∧
  (∀ block, preserved shrinks (onMouseLeave block)) ∧
  (∀ cb, preserved shrinks (runCallback cb)).
Proof.
  split_and!; intros; try destruct cb;
    preserved_walk shrinks_refl shrinks_trans shrinks_leaf.
Qed.

Lemma fireDue_shrinks n t p : shrinks p (fireDue n t p).
Proof.
  revert p. induction n as [|n IH]; intros p; cbn [fireDue]; [apply shrinks_refl|].
  destruct (earliest (timers p)) as [tm|]; [|apply shrinks_refl].
  destruct (due tm <=? t); [|apply shrinks_refl].
  eapply shrinks_trans; [|apply IH].
  unfold fire. cbn zeta. destruct listeners_shrink as (_ & _ & _ & _ & _ & _ & Hcb).
  eapply shrinks_trans; [|apply Hcb]. unfold shrinks. cbn. set_solver.
Qed.

Lemma react_shrinks e p : e ≠ PageReady → shrinks p (react e p).
Proof.
  intros He. destruct listeners_shrink as (H1 & H2 & H3 & H4 & H5 & H6 & _).
  destruct e; cbn [react]; unfold deliver, exec;
    [done|apply H2|apply H1|apply H4|apply H5|apply H6|apply H3|].
  unfold elapseTo. eapply shrinks_trans; [apply fireDue_shrinks|]. unfold shrinks. cbn. set_solver.
Qed.

(** X12. After page-ready no element is ever registered again: through
    any sequence of events other than page-ready the observation set only
    loses elements. *)
Theorem nothing_is_observed_after_ready (events : list Event) (p : Page) :
  PageReady ∉ events →
  observed (reactAll events p) ⊆ observed p.
Proof.
  revert p. induction events as [|e events IH]; intros p Hno; [done|].
  apply not_elem_of_cons in Hno as [He Hno].
  cbn [reactAll foldl]. etrans; [apply (IH _ Hno)|].
  apply react_shrinks. congruence.
Qed.

(** ** The intersection callback, beyond the flag *)

Lemma onlyAnimates_refl p : onlyAnimates p p.
Proof. unfold onlyAnimates. by split_and!. Qed.

Lemma onlyAnimates_trans p q r : onlyAnimates p q → onlyAnimates q r → onlyAnimates p r.
Proof.
  intros (H1 & H2 & H3 & H4 & H5 & H6 & H7 & H8 & H9 & Ho & Hx)
         (H1' & H2' & H3' & H4' & H5' & H6' & H7' & H8' & H9' & Ho' & Hx').
  unfold onlyAnimates. split_and!; try congruence; [set_solver|].
  intros x. destruct (Hx x) as (?&?&?&?&?&?&?&?&?), (Hx' x) as (?&?&?&?&?&?&?&?&?).
  split_and!; congruence.
Qed.

Ltac onlyAnimates_leaf :=
  unfold onlyAnimates; cbn; split_and!; try reflexivity;
  lazymatch goal with
  | |- _ ⊆ _ => set_solver
  | |- _ =>
      intros ?; unfold alter, fn_alter;
      try match goal with |- context [decide ?P] => destruct (decide P); subst end;
      by split_and!
  end.

Lemma handleIntersection_onlyAnimates batch :
  preserved onlyAnimates (handleIntersection batch).
Proof. preserved_walk onlyAnimates_refl onlyAnimates_trans onlyAnimates_leaf. Qed.

(** X3. The intersection callback touches nothing but class lists,
    transition delays and the observation set: whatever the batch, and
    whether or not it throws, every other inline style property, the tree,
    the listeners, the timers, the clock and the effects are as before, and
    the observation set has gained no element. *)
Theorem callback_touches_only_animation_state (batch : list Entry) (p : Page) :
  docElements (deliver batch p) = docElements p ∧
  docBody (deliver batch p) = docBody p ∧
  listeners (deliver batch p) = listeners p ∧
  clock (deliver batch p) = clock p ∧
  timers (deliver batch p) = timers p ∧
  nextTimerId (deliver batch p) = nextTimerId p ∧
  timeout (deliver batch p) = timeout p ∧
  resizeCalls (deliver batch p) = resizeCalls p ∧
  effects (deliver batch p) = effects p ∧
  observed (deliver batch p) ⊆ observed p ∧
  ∀ x, tagName (store (deliver batch p) x) = tagName (store p x) ∧
       idAttr (store (deliver batch p) x) = idAttr (store p x) ∧
       hrefAttr (store (deliver batch p) x) = hrefAttr (store p x) ∧
       parentElement (store (deliver batch p) x) = parentElement (store p x) ∧
       children (store (deliver batch p) x) = children (store p x) ∧
       transform (style (store (deliver batch p) x)) = transform (style (store p x)) ∧
       boxShadow (style (store (deliver batch p) x)) = boxShadow (style (store p x)) ∧
       opacity (style (store (deliver batch p) x)) = opacity (style (store p x)) ∧
       display (style (store (deliver batch p) x)) = display (style (store p x)).
Proof.
  pose proof (handleIntersection_onlyAnimates batch p) as H.
  unfold onlyAnimates in H. exact H.
Qed.

Lemma handleEntry_outcome p q entry :
  sameTree p q →
  fst (handleEntry entry q)
  = if hitsMissingParent p entry then Thrown "TypeError" else Done tt.
Proof.
  intros Hq. rewrite handleEntry_run. unfold hitsMissingParent.
  destruct (isIntersecting entry); [|done]. cbn zeta.
  rewrite (sameTree_isListItem p q) by done.
  destruct (Hq (target entry)) as (-> & _ & _).
  destruct (isListItem p (target entry)); [|done].
  by destruct (parentElement (store p (target entry))).
Qed.

Lemma parentsPresent_cons p entry rest :
  parentsPresent p (entry :: rest) ↔
  hitsMissingParent p entry = false ∧ parentsPresent p rest.
Proof.
  unfold parentsPresent, hitsMissingParent. split.
  - intros H. split.
    + destruct (isIntersecting entry) eqn:Hi; [|done].
      destruct (isListItem p (target entry)) eqn:Hl; [|done].
      destruct (H entry) as [par Hpar]; [left|done|done|]. by rewrite Hpar.
    + intros e He. apply H. by right.
  - intros [Hhit H] e [Heq|He]%elem_of_cons; [subst e|by apply H].
    intros Hi Hl. rewrite Hi, Hl in Hhit. cbn in Hhit.
    apply bool_decide_eq_false in Hhit.
    by destruct (parentElement (store p (target entry))).
Qed.

Lemma handleIntersection_outcome p q batch :
  sameTree p q →
  (fst (handleIntersection batch q) = Done tt ↔ parentsPresent p batch) ∧
  (fst (handleIntersection batch q) = Done tt ∨
   fst (handleIntersection batch q) = Thrown "TypeError").
Proof.
  revert q. unfold handleIntersection.
  induction batch as [|entry rest IH]; intros q Hq.
  { split; [|by left]. split; [|done]. intros _ e He. by apply elem_of_nil in He. }
  rewrite forEach_cons, bind_run, parentsPresent_cons.
  pose proof (handleEntry_outcome p q entry Hq) as Ho.
  pose proof (handleEntry_sameTree p entry q Hq) as Hq'. unfold exec in Hq'.
  destruct (handleEntry entry q) as [o q1]. cbn [fst snd] in *. subst o.
  destruct (hitsMissingParent p entry).
  - cbn. split; [|by right]. split; [done|]. by intros [? _].
  - destruct (IH q1 Hq') as [Hiff Hkind]. split; [|done].
    rewrite Hiff. tauto.
Qed.

(** X2. The intersection callback throws exactly when the batch holds an
    intersecting entry for a list item that has no parent element, and what
    it throws then is a TypeError; on every other batch it returns. *)
Theorem callback_throws_only_for_parentless_item (batch : list Entry) (p : Page) :
  (fst (handleIntersection batch p) = Done tt ↔ parentsPresent p batch) ∧
  (fst (handleIntersection batch p) = Done tt ∨
   fst (handleIntersection batch p) = Thrown "TypeError").
Proof.
  destruct (handleIntersection_outcome p p batch (sameTree_refl p)) as [Hiff Hkind].
  split; [exact Hiff|exact Hkind].
Qed.

Lemma notifyAll_skips_unobserved batches p r :
  r ∉ observed p →
  store (notifyAll batches p) r = store p r ∧ r ∉ observed (notifyAll batches p).
Proof.
  revert p. induction batches as [|batch rest IH]; intros p Hr; [done|].
  change (notifyAll (batch :: rest) p) with (notifyAll rest (notify batch p)).
  destruct (notify_skips_unobserved batch p r Hr) as [Hs Ho].
  destruct (IH _ Ho) as [Hs' Ho']. split; [|done]. by rewrite Hs'.
Qed.

Lemma deliver_unobserves batch p entry :
  fst (handleIntersection batch p) = Done tt →
  entry ∈ batch → isIntersecting entry = true →
  animated (deliver batch p) (target entry) = true ∧
  target entry ∉ observed (deliver batch p).
Proof.
  revert p. unfold deliver, handleIntersection.
  induction batch as [|e rest IH]; intros p Hd Hin Hi;
    [by apply elem_of_nil in Hin|].
  rewrite forEach_cons in *. unfold exec in *. rewrite bind_run in *.
  destruct (handleEntry e p) as [[[]|err] q] eqn:He; [|done]. cbn [fst snd] in *.
  apply elem_of_cons in Hin as [Heq|Hrest]; [subst entry|by apply IH].
  destruct (handleEntry_unobserves e p Hi) as [Ha Ho]; [by rewrite He|].
  unfold exec in Ha, Ho. rewrite He in Ha, Ho. cbn [snd] in Ha, Ho. split.
  - by apply (deliver_keeps_class rest q).
  - intros Hobs. apply Ho.
    destruct listeners_shrink as (Hs & _). by apply (Hs rest q).
Qed.

(** X1. When the callback returns, every element that had an intersecting
    entry in the batch is animated and out of the observation set; and
    since the observer reports registered targets only, nothing it reports
    afterwards changes such an element or registers it again. *)
Theorem handled_targets_are_retired
    (batch : list Entry) (p : Page) (entry : Entry) (reports : list (list Entry)) :
  fst (handleIntersection batch p) = Done tt →
  entry ∈ batch →
  isIntersecting entry = true →
  animated (deliver batch p) (target entry) = true ∧
  (target entry ∉ observed (deliver batch p)) ∧
  (store (notifyAll reports (deliver batch p)) (target entry)
     = store (deliver batch p) (target entry)) ∧
  (target entry ∉ observed (notifyAll reports (deliver batch p))).
Proof.
  intros Hd Hin Hi. destruct (deliver_unobserves batch p entry Hd Hin Hi) as [Ha Ho].
  split; [done|]. split; [done|]. by apply notifyAll_skips_unobserved.
Qed.

Lemma handled_targets_are_retired_witness :
  animated (deliver [mkEntry 4 true; mkEntry 9 true] samplePage) (target (mkEntry 4 true))
    = true ∧
  (target (mkEntry 4 true)
     ∉ observed (deliver [mkEntry 4 true; mkEntry 9 true] samplePage)) ∧
  (store (notifyAll [[mkEntry 4 true]; [mkEntry 5 true]]
            (deliver [mkEntry 4 true; mkEntry 9 true] samplePage)) (target (mkEntry 4 true))
     = store (deliver [mkEntry 4 true; mkEntry 9 true] samplePage)
             (target (mkEntry 4 true))) ∧
  (target (mkEntry 4 true)
     ∉ observed (notifyAll [[mkEntry 4 true]; [mkEntry 5 true]]
                   (deliver [mkEntry 4 true; mkEntry 9 true] samplePage))).
Proof.
  apply (handled_targets_are_retired [mkEntry 4 true; mkEntry 9 true] samplePage
           (mkEntry 4 true) [[mkEntry 4 true]; [mkEntry 5 true]]).
  - reflexivity.
  - apply list_elem_of_here.
  - reflexivity.
Defined.

(** ** Page-ready *)

Lemma forEach_observe xs p :
  forEach xs observe p = (Done tt, with_observed (list_to_set xs ∪ observed p) p).
Proof.
  revert p. induction xs as [|x xs IH]; intros p.
  - cbn. unfold ret. f_equal. destruct p. unfold with_observed. cbn. f_equal.
    set_solver.
  - rewrite forEach_cons, bind_run.
    change (observe x p) with (Done tt, with_observed ({[ x ]} ∪ observed p) p).
    cbv beta iota. rewrite IH. f_equal. unfold with_observed. cbn. f_equal. set_solver.
Qed.

Lemma forEach_addEventListener xs kind p :
  forEach xs (λ x, addEventListener x kind) p
  = (Done tt, with_listeners (listeners p ++ ((λ x, (x, kind)) <$> xs)) p).
Proof.
  revert p. induction xs as [|x xs IH]; intros p.
  - cbn. unfold ret. f_equal. destruct p. unfold with_listeners. cbn.
    by rewrite app_nil_r.
  - rewrite forEach_cons, bind_run.
    change (addEventListener x kind p)
      with (Done tt, with_listeners (listeners p ++ [(x, kind)]) p).
    cbv beta iota. rewrite IH. f_equal. unfold with_listeners. cbn.
    by rewrite <- app_assoc.
Qed.

Lemma forEach_hover xs p :
  forEach xs (λ block, addEventListener block OnMouseEnter ;;;
                       addEventListener block OnMouseLeave) p
  = (Done tt,
     with_listeners
       (listeners p ++ (xs ≫= λ block, [(block, OnMouseEnter); (block, OnMouseLeave)])) p).
Proof.
  revert p. induction xs as [|x xs IH]; intros p.
  - cbn. unfold ret. f_equal. destruct p. unfold with_listeners. cbn.
    by rewrite app_nil_r.
  - rewrite forEach_cons, bind_run.
    change ((addEventListener x OnMouseEnter ;;; addEventListener x OnMouseLeave) p)
      with (Done tt,
            with_listeners ((listeners p ++ [(x, OnMouseEnter)]) ++ [(x, OnMouseLeave)]) p).
    cbv beta iota. rewrite IH. f_equal. unfold with_listeners. cbn.
    by rewrite <- !app_assoc.
Qed.

Lemma initHeroAnimation_run p : initHeroAnimation p = (Done tt, heroScheduled p).
Proof.
  unfold initHeroAnimation, heroScheduled, querySelector, gets. rewrite bind_run.
  by destruct (firstMatch "hero-content" p).
Qed.

Lemma initListItemsAnimation_run p :
  initListItemsAnimation p
  = (Done tt, observing ["solution-item"] (observing ["problem-item"] p)).
Proof.
  unfold initListItemsAnimation, querySelectorAll, gets. rewrite !bind_run.
  by rewrite forEach_observe, forEach_observe.
Qed.

Lemma initGeneralSectionAnimations_run p :
  initGeneralSectionAnimations p
  = (Done tt, observing ["mission-content"; "contact-content"; "pulse-animation"] p).
Proof.
  unfold initGeneralSectionAnimations, querySelectorAll, gets. rewrite bind_run.
  by rewrite forEach_observe.
Qed.

Lemma initSmoothScrolling_run p :
  initSmoothScrolling p = (Done tt, with_listeners (listeners p ++ clickListeners p) p).
Proof.
  unfold initSmoothScrolling, queryHashLinks, gets. rewrite bind_run.
  by rewrite forEach_addEventListener.
Qed.

Lemma initHoverEffects_run p :
  initHoverEffects p = (Done tt, with_listeners (listeners p ++ hoverListeners p) p).
Proof.
  unfold initHoverEffects, querySelectorAll, gets. rewrite bind_run.
  by rewrite forEach_hover.
Qed.

Lemma onlyDelays_refl p : onlyDelays p p.
Proof.
  unfold onlyDelays. split_and!; try done. intros x.
  exists (transitionDelay (style (store p x))). by rewrite withDelay_same.
Qed.

Lemma onlyDelays_trans p q r : onlyDelays p q → onlyDelays q r → onlyDelays p r.
Proof.
  intros (H1 & H2 & H3 & H4 & H5 & H6 & H7 & H8 & H9 & Hx)
         (H1' & H2' & H3' & H4' & H5' & H6' & H7' & H8' & H9' & Hx').
  unfold onlyDelays. split_and!; try congruence.
  intros x. destruct (Hx x) as [d Hd], (Hx' x) as [d' Hd'].
  exists d'. by rewrite Hd', Hd.
Qed.

Lemma initServiceBlocksAnimation_run' p :
  initServiceBlocksAnimation p
  = (Done tt, exec initServiceBlocksAnimation p) ∧
  onlyDelays p (exec initServiceBlocksAnimation p) ∧
  observed (exec initServiceBlocksAnimation p)
    = list_to_set (matching ["service-block"] p) ∪ observed p ∧
  ∀ x, x ∉ matching ["service-block"] p →
       store (exec initServiceBlocksAnimation p) x = store p x.
Proof.
  unfold exec. rewrite initServiceBlocksAnimation_run.
  generalize (matching ["service-block"] p) as blocks. generalize 0%Z as k.
  intros k blocks. revert k p.
  induction blocks as [|b blocks IH]; intros k p; cbn [forEach_from].
  { cbn. split; [done|]. split; [apply onlyDelays_refl|]. split; [set_solver|done]. }
  rewrite bind_run, serviceBlockStep_run.
  set (p1 := with_observed _ _).
  destruct (IH (k + 1)%Z p1) as (Hrun & Hod & Hobs & Hoth).
  split; [by rewrite Hrun|]. split; [|split].
  - destruct Hod as (H1 & H2 & H3 & H4 & H5 & H6 & H7 & H8 & H9 & Hx).
    unfold onlyDelays. cbn in *. split_and!; try done.
    intros x. destruct (Hx x) as [d Hd]. rewrite Hd.
    unfold alter, fn_alter. destruct (decide (b = x)) as [->|]; [|by exists d].
    exists d. by destruct (store p x) as [? ? ? ? [] ? ?].
  - rewrite Hobs. subst p1. cbn. set_solver.
  - intros x [Hne Hx]%not_elem_of_cons. rewrite (Hoth x Hx). subst p1. cbn.
    by rewrite fn_lookup_alter_ne.
Qed.

Lemma sameMarkup_refl p : sameMarkup p p.
Proof.
  split; [done|]. split; [done|]. intros x.
  exists (transitionDelay (style (store p x))). by rewrite withDelay_same.
Qed.

Lemma sameMarkup_trans p q r : sameMarkup p q → sameMarkup q r → sameMarkup p r.
Proof.
  intros (Hd & Hb & Hx) (Hd' & Hb' & Hx'). split; [congruence|]. split; [congruence|].
  intros x. destruct (Hx x) as [d Hq], (Hx' x) as [d' Hr]. exists d'.
  by rewrite Hr, Hq.
Qed.

Lemma onlyDelays_sameMarkup p q : onlyDelays p q → sameMarkup p q.
Proof. intros (? & ? & _ & _ & _ & _ & _ & _ & _ & ?). by split_and!. Qed.

Lemma sameMarkup_same_store p q :
  docElements q = docElements p → docBody q = docBody p → store q = store p →
  sameMarkup p q.
Proof.
  intros Hd Hb Hs. split; [done|]. split; [done|]. intros x. rewrite Hs.
  exists (transitionDelay (style (store p x))). by rewrite withDelay_same.
Qed.

Lemma sameMarkup_hasClass p q tok x : sameMarkup p q → hasClass q tok x = hasClass p tok x.
Proof. intros (_ & _ & Hx). unfold hasClass. by destruct (Hx x) as [d ->]. Qed.

Lemma sameMarkup_matching classes p q :
  sameMarkup p q → matching classes q = matching classes p.
Proof.
  intros Hm. unfold matching. destruct Hm as (Hd & Hb & Hx). rewrite Hd.
  apply list_filter_iff. intros r. unfold hasClass.
  by destruct (Hx r) as [d ->].
Qed.

Lemma sameMarkup_hashLinks p q : sameMarkup p q → hashLinks q = hashLinks p.
Proof.
  intros (Hd & Hb & Hx). unfold hashLinks. rewrite Hd.
  apply list_filter_iff. intros r. by destruct (Hx r) as [d ->].
Qed.

Lemma heroScheduled_fields p :
  store (heroScheduled p) = store p ∧
  docElements (heroScheduled p) = docElements p ∧
  docBody (heroScheduled p) = docBody p ∧
  observed (heroScheduled p) = observed p ∧
  listeners (heroScheduled p) = listeners p ∧
  effects (heroScheduled p) = effects p ∧
  timers (heroScheduled p)
    = timers p ++
      match firstMatch "hero-content" p with
      | Some h => [mkTimer (nextTimerId p) (clock p + 300) (HeroReveal h)]
      | None => []
      end.
Proof.
  unfold heroScheduled. destruct (firstMatch "hero-content" p); cbn; split_and!;
    try done. by rewrite app_nil_r.
Qed.

Lemma onDOMContentLoaded_run p : onDOMContentLoaded p = (Done tt, readyPage p).
Proof.
  unfold onDOMContentLoaded, readyPage.
  rewrite bind_run, initHeroAnimation_run.
  destruct (initServiceBlocksAnimation_run' (heroScheduled p)) as (Hrun & _).
  rewrite bind_run, Hrun.
  rewrite bind_run, initListItemsAnimation_run.
  rewrite bind_run, initGeneralSectionAnimations_run.
  rewrite bind_run, initSmoothScrolling_run.
  rewrite bind_run, initHoverEffects_run.
  reflexivity.
Qed.

(** The pages page-ready goes through differ from the first in transition
    delays only, as far as the document goes. *)
Lemma readyPage_markup p :
  let q1 := exec initServiceBlocksAnimation (heroScheduled p) in
  sameMarkup p q1 ∧ sameMarkup p (readyPage p) ∧
  store (readyPage p) = store q1.
Proof.
  cbn zeta. destruct (heroScheduled_fields p) as (Hs & Hd & Hb & _).
  destruct (initServiceBlocksAnimation_run' (heroScheduled p)) as (_ & Hod & _).
  assert (H1 : sameMarkup p (exec initServiceBlocksAnimation (heroScheduled p))).
  { eapply sameMarkup_trans; [by apply sameMarkup_same_store|].
    by apply onlyDelays_sameMarkup. }
  split; [done|]. split; [|reflexivity].
  eapply sameMarkup_trans; [exact H1|]. by apply sameMarkup_same_store.
Qed.




(** X7. Page-ready never throws.  It adds one click listener for each
    link [a[href^="#"]] of the document and a mouseenter and a mouseleave
    listener for each service block, in tree order; it logs exactly one
    line; and it sets one timer, 300 ms ahead, if the document has a hero
    block, and none otherwise. *)
Theorem page_ready_registers_listeners_and_logs (p : Page) :
  fst (onDOMContentLoaded p) = Done tt ∧
  listeners (exec onDOMContentLoaded p)
    = listeners p ++ clickListeners p ++ hoverListeners p ∧
  effects (exec onDOMContentLoaded p)
    = effects p ++
      [ConsoleLog "AI Automation Agency website animations initialized successfully!"] ∧
  timers (exec onDOMContentLoaded p)
    = timers p ++
      match firstMatch "hero-content" p with
      | Some h => [mkTimer (nextTimerId p) (clock p + 300) (HeroReveal h)]
      | None => []
      end.
Proof.
  unfold exec. rewrite onDOMContentLoaded_run. cbn [fst snd]. split; [done|].
  destruct (readyPage_markup p) as (H1 & _ & _). cbn zeta in H1.
  destruct (initServiceBlocksAnimation_run' (heroScheduled p)) as (_ & Hod & _).
  destruct Hod as (_ & _ & Hl & _ & Ht & _ & _ & _ & He & _).
  destruct (heroScheduled_fields p) as (_ & _ & _ & _ & Hl0 & He0 & Ht0).
  unfold readyPage. cbn zeta.
  set (q1 := exec initServiceBlocksAnimation (heroScheduled p)) in *.
  assert (Hc : clickListeners
                 (observing ["mission-content"; "contact-content"; "pulse-animation"]
                    (observing ["solution-item"] (observing ["problem-item"] q1)))
               = clickListeners p).
  { unfold clickListeners. f_equal. apply sameMarkup_hashLinks.
    eapply sameMarkup_trans; [exact H1|]. by apply sameMarkup_same_store. }
  assert (Hh : hoverListeners
                 (with_listeners (listeners q1 ++ clickListeners p)
                    (observing ["mission-content"; "contact-content"; "pulse-animation"]
                       (observing ["solution-item"] (observing ["problem-item"] q1))))
               = hoverListeners p).
  { unfold hoverListeners. f_equal. apply sameMarkup_matching.
    eapply sameMarkup_trans; [exact H1|]. by apply sameMarkup_same_store. }
  cbn [listeners effects timers with_effects with_listeners observing with_observed].
  cbn [listeners observing with_observed] in Hc. rewrite Hc.
  cbn [listeners observing with_observed] in Hh. rewrite Hh.
  rewrite Hl, Hl0, He, He0, Ht, Ht0. by rewrite <- app_assoc.
Qed.

(** X8. Page-ready changes no element but the service blocks, and of
    those nothing but the transition delay: class lists and the other
    inline style properties of every element are as before (so nothing is
    animated by page-ready itself). *)
Theorem page_ready_changes_delays_only (p : Page) (x : ref) :
  classList (store (exec onDOMContentLoaded p) x) = classList (store p x) ∧
  transform (style (store (exec onDOMContentLoaded p) x)) = transform (style (store p x)) ∧
  boxShadow (style (store (exec onDOMContentLoaded p) x)) = boxShadow (style (store p x)) ∧
  opacity (style (store (exec onDOMContentLoaded p) x)) = opacity (style (store p x)) ∧
  display (style (store (exec onDOMContentLoaded p) x)) = display (style (store p x)) ∧
  (x ∉ matching ["service-block"] p → store (exec onDOMContentLoaded p) x = store p x).
Proof.
  unfold exec. rewrite onDOMContentLoaded_run. cbn [snd].
  destruct (readyPage_markup p) as (H1 & (_ & _ & Hx) & Hst). cbn zeta in H1, Hst.
  destruct (Hx x) as [d Hd]. rewrite Hd. split_and!; try done.
  intros Hno. rewrite <- Hd, Hst.
  destruct (initServiceBlocksAnimation_run' (heroScheduled p)) as (_ & _ & _ & Hoth).
  destruct (heroScheduled_fields p) as (Hs & Hdoc & Hb & _).
  rewrite Hoth, Hs; [done|].
  by rewrite (sameMarkup_matching _ p (heroScheduled p))
    by (by apply sameMarkup_same_store).
Qed.

Lemma handleEntry_keeps_delay p q entry r :
  sameTree p q → isListItem p r = false →
  delayOf (exec (handleEntry entry) q) r = delayOf q r.
Proof.
  intros Hq Hr. destruct (decide (r = target entry)) as [->|Hne].
  - unfold exec, delayOf. rewrite handleEntry_run.
    destruct (isIntersecting entry); [|done]. cbn zeta.
    rewrite (sameTree_isListItem p q), Hr by done. cbn.
    by rewrite (alter_proj (λ e, transitionDelay (style e))).
  - unfold delayOf. by destruct (handleEntry_other entry q r Hne) as [-> _].
Qed.

Lemma deliverAll_keeps_delay batches q r :
  isListItem q r = false → delayOf (deliverAll batches q) r = delayOf q r.
Proof.
  intros Hr.
  assert (H : ∀ batches p, sameTree q p →
            sameTree q (deliverAll batches p) ∧
            delayOf (deliverAll batches p) r = delayOf p r).
  { clear batches. induction batches as [|batch rest IH]; intros p Hp; [done|].
    change (deliverAll (batch :: rest) p) with (deliverAll rest (deliver batch p)).
    assert (Hb : sameTree q (deliver batch p) ∧ delayOf (deliver batch p) r = delayOf p r).
    { unfold deliver, handleIntersection.
      apply (forEach_invariant (λ p', sameTree q p' ∧ delayOf p' r = delayOf p r));
        [|done].
      intros entry p' _ [Hp' Hdel]. split; [by apply handleEntry_sameTree|].
      by rewrite (handleEntry_keeps_delay q). }
    destruct Hb as [Hb1 Hb2]. destruct (IH _ Hb1) as [? Hd]. split; [done|].
    by rewrite Hd. }
  by destruct (H batches q (sameTree_refl q)).
Qed.

(** X4. A service block that is not also a list item keeps the delay
    page-ready gave it: whatever batches the callback handles afterwards,
    its transition delay is still [`${k * 0.2}s`], [k] being its position
    among the service blocks of the document. *)
Theorem service_block_delay_survives_triggers
    (p : Page) (k : nat) (r : ref) (batches : list (list Entry)) :
  NoDup (docElements p) →
  matching ["service-block"] p !! k = Some r →
  isListItem p r = false →
  delayOf (deliverAll batches (exec onDOMContentLoaded p)) r
    = NumUnit (PrimFloat.mul (js_number (Z.of_nat k)) 0.2%float) "s".
Proof.
  intros Hnd Hk Hli. unfold exec. rewrite onDOMContentLoaded_run. cbn [snd].
  destruct (readyPage_markup p) as (_ & Hm & Hst). cbn zeta in Hst.
  rewrite deliverAll_keeps_delay.
  - unfold delayOf. rewrite Hst.
    assert (Hblocks : matching ["service-block"] (heroScheduled p)
                      = matching ["service-block"] p).
    { destruct (heroScheduled_fields p) as (? & ? & ? & _).
      by apply sameMarkup_matching, sameMarkup_same_store. }
    unfold exec. rewrite initServiceBlocksAnimation_run, Hblocks.
    destruct (serviceBlocks_loop (matching ["service-block"] p) 0%Z (heroScheduled p))
      as (_ & Hdel & _).
    { unfold matching. by apply NoDup_filter. }
    destruct (Hdel k r Hk) as [Hd _]. unfold exec, delayOf in Hd. by rewrite Hd.
  - unfold isListItem in *. by rewrite !(sameMarkup_hasClass p (readyPage p)).
Qed.

Lemma service_block_delay_survives_triggers_witness :
  delayOf (deliverAll [[mkEntry 9 true; mkEntry 4 true]; [mkEntry 9 true]]
             (exec onDOMContentLoaded samplePage)) 9
    = NumUnit (PrimFloat.mul (js_number (Z.of_nat 0)) 0.2%float) "s".
Proof.
  apply (service_block_delay_survives_triggers samplePage 0 9
           [[mkEntry 9 true; mkEntry 4 true]; [mkEntry 9 true]]).
  - apply (bool_decide_unpack _). vm_compute. exact I.
  - reflexivity.
  - reflexivity.
Defined.

(** ** The hero block *)

Lemma fire_animated tm q h :
  (callback tm = HeroReveal h → animated (fire tm q) h = true) ∧
  (animated q h = true → animated (fire tm q) h = true).
Proof.
  split.
  - intros Hcb. unfold fire, animated, hasClass. rewrite Hcb. cbn.
    rewrite fn_lookup_alter. apply tokens_contains_add_same.
  - unfold animated, hasClass, tokens_contains. rewrite !bool_decide_eq_true.
    destruct (fire_grows tm q) as (_ & _ & Hx).
    destruct (Hx h) as (_ & _ & _ & _ & _ & Hc). apply Hc.
Qed.

(** A pending [HeroReveal] that is due gets fired, and the class stays. *)
Lemma fireDue_reveals n t q h :
  timersWf q → length (timers q) ≤ n →
  animated q h = true ∨
    (∃ tm, tm ∈ timers q ∧ callback tm = HeroReveal h ∧ due tm ≤ t) →
  animated (fireDue n t q) h = true.
Proof.
  revert q. induction n as [|n IH]; intros q Hwf Hlen Hinv.
  { cbn. destruct Hinv as [?|(tm & Hin & _)]; [done|].
    destruct (timers q); [by apply elem_of_nil in Hin|cbn in Hlen; lia]. }
  cbn [fireDue]. destruct (earliest (timers q)) as [tm|] eqn:He.
  - destruct (earliest_Some _ _ He) as [Hin Hmin].
    destruct (due tm <=? t) eqn:Hdue.
    + destruct (fire_spec q tm Hwf He) as (Hwf' & Hlen' & _).
      destruct (fire_animated tm q h) as (Hfired & Hkeep).
      apply IH; [done|lia|].
      destruct Hinv as [Hd|(tm0 & Hin0 & Hcb & Hdue0)]; [left; auto|].
      destruct (decide (tm0 = tm)) as [->|Hne]; [left; auto|].
      right. exists tm0. split; [|done].
      destruct (fire_fields q tm) as (Hts & _).
      { destruct (throttleArg (callback tm)) eqn:Ha; [left|by right].
        apply (wf_timeout q Hwf tm Hin). by rewrite Ha. }
      rewrite Hts. apply list_elem_of_filter. split; [|done].
      by apply (distinct_ids (timers q)); [apply (wf_ids q Hwf)|..].
    + apply Nat.leb_gt in Hdue.
      destruct Hinv as [?|(tm0 & Hin0 & _ & Hdue0)]; [done|].
      specialize (Hmin tm0 Hin0). lia.
  - apply earliest_None in He.
    destruct Hinv as [?|(tm0 & Hin0 & _)]; [done|].
    rewrite He in Hin0. by apply elem_of_nil in Hin0.
Qed.

(** X5. [initHeroAnimation] never throws and changes no element at once.
    If the document has a hero block, the first one is animated once
    300 ms have passed (and, on a page with no other timer pending, it is
    untouched until then); if it has none, the page is left as it is. *)
Theorem hero_is_revealed_after_300ms (p : Page) :
  timersWf p →
  fst (initHeroAnimation p) = Done tt ∧
  store (exec initHeroAnimation p) = store p ∧
  (∀ h, firstMatch "hero-content" p = Some h →
     (∀ t, clock p + 300 ≤ t →
        animated (elapseTo t (exec initHeroAnimation p)) h = true) ∧
     (timers p = [] → ∀ t, t < clock p + 300 →
        store (elapseTo t (exec initHeroAnimation p)) h = store p h)) ∧
  (firstMatch "hero-content" p = None → exec initHeroAnimation p = p).
Proof.
  intros Hwf. unfold exec. rewrite initHeroAnimation_run. cbn [fst snd].
  split; [done|]. destruct (heroScheduled_fields p) as (Hs & _ & _ & _ & _ & _ & Ht).
  split; [done|]. unfold heroScheduled in *.
  destruct (firstMatch "hero-content" p) as [h0|]; [|by split].
  split; [|done]. intros h [= <-].
  set (q := snd (setTimeout (HeroReveal h0) 300 p)) in *.
  assert (Hq : timersWf q) by (by apply setTimeout_wf).
  split.
  - intros t Hdue. unfold elapseTo.
    change (animated (fireDue (length (timers q)) t q) h0 = true).
    apply fireDue_reveals; [done..|]. right.
    exists (mkTimer (nextTimerId p) (clock p + 300) (HeroReveal h0)).
    split; [|done]. rewrite Ht. apply elem_of_app. right. left.
  - intros Hnil t Hdue. unfold elapseTo. rewrite Ht, Hnil.
    cbn [app length fireDue]. rewrite Ht, Hnil. cbn [app earliest due].
    rewrite (proj2 (Nat.leb_gt _ _) Hdue). cbn [store with_clock]. by rewrite Hs.
Qed.

Lemma hero_is_revealed_after_300ms_witness :
  fst (initHeroAnimation samplePage) = Done tt ∧
  store (exec initHeroAnimation samplePage) = store samplePage ∧
  (∀ h, firstMatch "hero-content" samplePage = Some h →
     (∀ t, clock samplePage + 300 ≤ t →
        animated (elapseTo t (exec initHeroAnimation samplePage)) h = true) ∧
     (timers samplePage = [] → ∀ t, t < clock samplePage + 300 →
        store (elapseTo t (exec initHeroAnimation samplePage)) h = store samplePage h)) ∧
  (firstMatch "hero-content" samplePage = None →
     exec initHeroAnimation samplePage = samplePage).
Proof. apply (hero_is_revealed_after_300ms samplePage). exact samplePage_timersWf. Defined.

(** ** Timers across events *)

Lemma timersSafe_refl p : timersSafe p p.
Proof. by intros Hwf. Qed.

Lemma timersSafe_trans p q r : timersSafe p q → timersSafe q r → timersSafe p r.
Proof.
  intros H1 H2 Hwf. destruct (H1 Hwf) as (Hq & Htv & Hrc).
  destruct (H2 Hq) as (Hr & Htv' & Hrc'). split; [done|]. split; congruence.
Qed.

Lemma timersSafe_same_fields p q :
  timers q = timers p → nextTimerId q = nextTimerId p → clock q = clock p →
  timeout q = timeout p → resizeCalls q = resizeCalls p → timersSafe p q.
Proof.
  intros Ht Hn Hc Hto Hrc [H1 H2 H3 H4 H5]. split; [|split; [|done]].
  - constructor; rewrite ?Ht, ?Hn, ?Hc, ?Hto; done.
  - unfold throttleView. by rewrite Ht.
Qed.

Lemma setTimeout_timersSafe cb wait p :
  throttleArg cb = None → timersSafe p (snd (setTimeout cb wait p)).
Proof.
  intros Hcb Hwf. split; [by apply setTimeout_wf|]. split; [|done].
  unfold throttleView, setTimeout. cbn. rewrite omap_app. cbn.
  unfold throttleEntry at 2. cbn. rewrite Hcb. cbn. by rewrite app_nil_r.
Qed.

Ltac timersSafe_leaf :=
  first
    [ apply timersSafe_refl
    | apply timersSafe_same_fields; reflexivity ].

Ltac timersSafe_walk :=
  unfold_handlers;
  repeat first
    [ apply (preserved_bind _ timersSafe_trans); [|intros ?]
    | apply (preserved_forEach_from _ timersSafe_refl timersSafe_trans); intros ? ?
    | apply (preserved_ret _ timersSafe_refl)
    | apply (preserved_throw _ timersSafe_refl)
    | apply (preserved_gets _ timersSafe_refl)
    | lazymatch goal with
      | |- preserved _ (match ?x with _ => _ end) => destruct x
      | |- preserved _ (setTimeout _ _) =>
          intros ?; apply setTimeout_timersSafe; reflexivity
      end
    | (apply preserved_modify; intros ?; cbn; timersSafe_leaf) ].

Lemma listeners_timersSafe :
  preserved timersSafe onDOMContentLoaded ∧
  preserved timersSafe onLoad ∧
  (∀ batch, preserved timersSafe (handleIntersection batch)) ∧
  (∀ link, preserved timersSafe (anchorClick link)) ∧
  (∀ block, preserved timersSafe (onMouseEnter block)) ∧
  (∀ block, preserved timersSafe (onMouseLeave block)).
Proof. split_and!; intros; timersSafe_walk. Qed.

Lemma filter_split_length {A} (P Q : A → Prop)
    `{∀ x, Decision (P x)} `{∀ x, Decision (Q x)} (l : list A) :
  (∀ x, P x ↔ ¬ Q x) →
  length (filter P l) + length (filter Q l) = length l.
Proof.
  intros HPQ. induction l as [|x l IH]; [done|].
  rewrite !filter_cons. destruct (decide (P x)) as [HP|HP], (decide (Q x)) as [HQ|HQ];
    cbn; try lia.
  - by apply HPQ in HP.
  - exfalso. apply HP. by apply HPQ.
Qed.

(** The calls of [later], made and pending, before and after an event. *)
Lemma react_timers e p :
  timersWf p →
  timersWf (react e p) ∧
  length (resizeCalls (react e p)) + length (throttleView (react e p))
    ≤ length (resizeCalls p) + length (throttleView p) + (if isResize e then 1 else 0).
Proof.
  intros Hwf.
  destruct listeners_timersSafe as (H1 & H2 & H3 & H4 & H5 & H6).
  assert (Hsafe : ∀ q, timersSafe p q →
            timersWf q ∧
            length (resizeCalls q) + length (throttleView q)
              ≤ length (resizeCalls p) + length (throttleView p) + 0).
  { intros q Hq. destruct (Hq Hwf) as (? & -> & ->). split; [done|lia]. }
  destruct e; cbn [react isResize]; unfold deliver, exec;
    try (apply Hsafe; first [apply H1|apply H2|apply H3|apply H4|apply H5|apply H6]).
  - destruct (onResize_spec ev p Hwf) as (_ & Hwf' & _ & Hrc & Htv).
    unfold exec in *. rewrite Hrc, Htv. split; [done|]. cbn. lia.
  - destruct (elapseTo_spec (clock p + ms) p Hwf) as (Hwf' & _ & _ & Hrc & Htv).
    split; [done|]. rewrite Hrc, Htv, length_app.
    assert (Hlen : length (filter (λ e : nat * nat, fst e ≤ clock p + ms) (throttleView p))
                   + length (filter (λ e : nat * nat, clock p + ms < fst e) (throttleView p))
                   = length (throttleView p)).
    { apply filter_split_length. intros x. lia. }
    lia.
Qed.

Lemma throttleView_at_most_one p : timersWf p → length (throttleView p) ≤ 1.
Proof.
  intros [Hids _ _ _ Hto]. unfold throttleView.
  assert (Hsame : ∀ u v, u ∈ timers p → v ∈ timers p →
            is_Some (throttleEntry u) → is_Some (throttleEntry v) →
            timerId u = timerId v).
  { intros u v Hu Hv [eu Heu] [ev Hev].
    assert (H1 : timeout p = Some (timerId u)).
    { apply Hto; [done|]. unfold throttleEntry in Heu.
      by destruct (throttleArg (callback u)). }
    assert (H2 : timeout p = Some (timerId v)).
    { apply Hto; [done|]. unfold throttleEntry in Hev.
      by destruct (throttleArg (callback v)). }
    congruence. }
  clear Hto. induction (timers p) as [|tm rest IH]; [cbn; lia|].
  rewrite fmap_cons in Hids. apply NoDup_cons in Hids as [Hnew Hids]. csimpl.
  destruct (throttleEntry tm) as [e|] eqn:He.
  - rewrite (omap_none throttleEntry rest); [cbn; lia|].
    intros u Hu. destruct (throttleEntry u) eqn:Hue; [|done]. exfalso.
    apply Hnew. rewrite (Hsame tm u); [by apply list_elem_of_fmap_2|left|by right|..];
      by eexists.
  - apply IH; [done|]. intros u v Hu Hv. apply Hsame; by right.
Qed.

Lemma reactAll_timers events p :
  timersWf p →
  timersWf (reactAll events p) ∧
  length (resizeCalls (reactAll events p)) + length (throttleView (reactAll events p))
    ≤ length (resizeCalls p) + length (throttleView p) + countResizes events.
Proof.
  revert p. induction events as [|e events IH]; intros p Hwf; [cbn; split; [done|lia]|].
  change (reactAll (e :: events) p) with (reactAll events (react e p)).
  destruct (react_timers e p Hwf) as [Hwf' Hle].
  destruct (IH _ Hwf') as [Hwf'' Hle']. split; [done|].
  cbn [countResizes]. lia.
Qed.

(** X9. The timer table stays well formed through any sequence of events
    (so the timed properties above hold on every page the script can
    reach), and at no time is more than one call of [later] pending. *)
Theorem timers_stay_well_formed (events : list Event) (p : Page) :
  timersWf p →
  timersWf (reactAll events p) ∧ length (throttleView (reactAll events p)) ≤ 1.
Proof.
  intros Hwf. destruct (reactAll_timers events p Hwf) as [Hwf' _].
  split; [done|]. by apply throttleView_at_most_one.
Qed.

(** X15. Whatever else happens in between, the wrapped action is never
    called more often than resize events arrived: starting with no call
    pending, the calls made so far plus the one that may be pending are at
    most as many as the resize events so far. *)
Theorem action_runs_at_most_once_per_resize (events : list Event) (p : Page) :
  timersWf p →
  throttleView p = [] →
  length (resizeCalls (reactAll events p)) + length (throttleView (reactAll events p))
    ≤ length (resizeCalls p) + countResizes events.
Proof.
  intros Hwf Htv. destruct (reactAll_timers events p Hwf) as [_ Hle].
  rewrite Htv in Hle. cbn in Hle. lia.
Qed.

(** ** Errors of the click and load listeners *)

(** X13. The click listener throws exactly when the link has no href
    attribute any more at the time of the click; it then throws a
    TypeError, after the default action has been prevented already. *)
Theorem click_throws_only_without_href (p : Page) (this : ref) :
  (fst (anchorClick this p) = Done tt ↔ is_Some (hrefAttr (store p this))) ∧
  (hrefAttr (store p this) = None →
   anchorClick this p
   = (Thrown "TypeError", with_effects (effects p ++ [PreventDefault]) p)).
Proof.
  destruct (hrefAttr (store p this)) as [h|] eqn:Hh.
  - split; [|done]. rewrite (anchorClick_run p this h Hh). split; [by eexists|].
    intros _. by destruct (fst (getElementById (substring1 h) p)) as [[t|]|].
  - assert (Hrun : anchorClick this p
                   = (Thrown "TypeError", with_effects (effects p ++ [PreventDefault]) p)).
    { unfold anchorClick. js_unfold. by rewrite Hh. }
    split; [|done]. rewrite Hrun. cbn. split; [done|]. by intros [? ?].
Qed.

(** X14. The load listener throws exactly when the document has no body;
    it then throws a TypeError before changing anything, so a loader, if
    there is one, is neither faded nor hidden. *)
Theorem load_throws_only_without_body (p : Page) :
  (fst (onLoad p) = Done tt ↔ is_Some (docBody p)) ∧
  (docBody p = None → onLoad p = (Thrown "TypeError", p)).
Proof.
  destruct (docBody p) as [b|] eqn:Hb.
  - split; [|done]. rewrite (onLoad_run p b Hb). cbn zeta.
    split; [by eexists|]. intros _. by destruct (firstMatch "loader" p).
  - assert (Hrun : onLoad p = (Thrown "TypeError", p)).
    { unfold onLoad. js_unfold. by rewrite Hb. }
    split; [|done]. rewrite Hrun. cbn. split; [done|]. by intros [? ?].
Qed.

(** ** Hover, over and over *)

Lemma hoverEvent_run enter this q :
  fst (hoverEvent enter this q) = Done tt ∧
  store (exec (hoverEvent enter this) q) this
    = with_style (hoverStyle enter (style (store q this))) (store q this) ∧
  ∀ x, x ≠ this → store (exec (hoverEvent enter this) q) x = store q x.
Proof.
  unfold hoverEvent, hoverStyle, onMouseEnter, onMouseLeave.
  destruct enter; js_unfold; (split; [done|]); split;
    try (by rewrite !fn_lookup_alter);
    intros x Hne; by rewrite !fn_lookup_alter_ne.
Qed.

Lemma hoverStyle_twice m1 m2 st : hoverStyle m2 (hoverStyle m1 st) = hoverStyle m2 st.
Proof. by destruct st, m1, m2. Qed.

(** X16. Hover styling is stateless: after any sequence of pointer-enter
    and pointer-leave events on a block, its transform and box shadow are
    the ones written by the last event alone, the rest of the block is as
    it was before the first, and no other element has changed. *)
Theorem hover_style_follows_last_event
    (moves : list bool) (last : bool) (this : ref) (p : Page) :
  store (hoverRun (moves ++ [last]) this p) this
    = with_style (hoverStyle last (style (store p this))) (store p this) ∧
  ∀ x, x ≠ this → store (hoverRun (moves ++ [last]) this p) x = store p x.
Proof.
  revert p. induction moves as [|m moves IH]; intros p.
  - cbn [app hoverRun foldl].
    by destruct (hoverEvent_run last this p) as (_ & ? & ?).
  - change (hoverRun ((m :: moves) ++ [last]) this p)
      with (hoverRun (moves ++ [last]) this (exec (hoverEvent m this) p)).
    destruct (hoverEvent_run m this p) as (_ & Hs & Ho).
    destruct (IH (exec (hoverEvent m this) p)) as [IHs IHo]. split.
    + rewrite IHs, Hs. destruct (store p this). cbn. unfold with_style. cbn.
      by rewrite hoverStyle_twice.
    + intros x Hne. by rewrite IHo, Ho.
Qed.

(** ** Listeners that have nothing to do with the animation *)

Lemma sameAnimation_refl p : sameAnimation p p.
Proof. by split. Qed.

Lemma sameAnimation_trans p q r : sameAnimation p q → sameAnimation q r → sameAnimation p r.
Proof.
  intros [Ho Hx] [Ho' Hx']. split; [congruence|]. intros x.
  destruct (Hx x) as [? ?], (Hx' x) as [? ?]. split; congruence.
Qed.

Ltac sameAnimation_leaf :=
  try lazymatch goal with
      | |- sameAnimation _ (match ?x with _ => _ end) => destruct x
      end;
  (split; [reflexivity|]); intros ?; unfold animated, hasClass, delayOf; cbn;
  unfold alter, fn_alter;
  try match goal with |- context [decide ?P] => destruct (decide P); subst end;
  cbn; rewrite ?tokens_contains_add_ne by done; by split.

Lemma listeners_sameAnimation :
  preserved sameAnimation onLoad ∧
  (∀ ev, preserved sameAnimation (onResize ev)) ∧
  (∀ link, preserved sameAnimation (anchorClick link)) ∧
  (∀ block, preserved sameAnimation (onMouseEnter block)) ∧
  (∀ block, preserved sameAnimation (onMouseLeave block)).
Proof.
  split_and!; intros;
    preserved_walk sameAnimation_refl sameAnimation_trans sameAnimation_leaf.
Qed.

(** X17. Load, click, hover and resize have no part in the animation:
    through any sequence of such events the observation set, the animated
    flag of every element and every transition delay stay as they are. *)
Theorem other_listeners_leave_animation_alone (events : list Event) (p : Page) :
  (∀ e, e ∈ events → drivesAnimation e = false) →
  sameAnimation p (reactAll events p).
Proof.
  revert p. induction events as [|e events IH]; intros p Hev; [apply sameAnimation_refl|].
  change (reactAll (e :: events) p) with (reactAll events (react e p)).
  eapply sameAnimation_trans; [|apply IH; intros e' He'; apply Hev; by right].
  destruct listeners_sameAnimation as (H1 & H2 & H3 & H4 & H5).
  specialize (Hev e (list_elem_of_here _ _)).
  destruct e; cbn [react]; try discriminate Hev; unfold exec;
    [apply H1|apply H3|apply H4|apply H5|apply H2].
Qed.

(** ** The loader *)

Lemma staysHidden_refl l p : staysHidden l p p.
Proof. by intros H. Qed.

Lemma staysHidden_trans l p q r :
  staysHidden l p q → staysHidden l q r → staysHidden l p r.
Proof. unfold staysHidden. auto. Qed.

Ltac staysHidden_leaf :=
  try lazymatch goal with
      | |- staysHidden _ _ (match ?x with _ => _ end) => destruct x
      end;
  unfold staysHidden, displayOf; cbn; unfold alter, fn_alter;
  try match goal with |- context [decide ?P] => destruct (decide P); subst end;
  cbn; auto.

Lemma listeners_keep_hidden l :
  preserved (staysHidden l) onDOMContentLoaded ∧
  preserved (staysHidden l) onLoad ∧
  (∀ batch, preserved (staysHidden l) (handleIntersection batch)) ∧
  (∀ ev, preserved (staysHidden l) (onResize ev)) ∧
  (∀ link, preserved (staysHidden l) (anchorClick link)) ∧
  (∀ block, preserved (staysHidden l) (onMouseEnter block)) ∧
  (∀ block, preserved (staysHidden l) (onMouseLeave block)).
Proof.
  split_and!; intros;
    preserved_walk (staysHidden_refl l) (staysHidden_trans l) staysHidden_leaf.
Qed.

Lemma fireDue_keeps_hidden l n t p : staysHidden l p (fireDue n t p).
Proof.
  revert p. induction n as [|n IH]; intros p; cbn [fireDue]; [apply staysHidden_refl|].
  destruct (earliest (timers p)) as [tm|]; [|apply staysHidden_refl].
  destruct (due tm <=? t); [|apply staysHidden_refl].
  eapply staysHidden_trans; [|apply IH].
  intros H. by apply (fire_display tm p l).
Qed.

Lemma react_keeps_hidden l e p : staysHidden l p (react e p).
Proof.
  destruct (listeners_keep_hidden l) as (H1 & H2 & H3 & H4 & H5 & H6 & H7).
  destruct e; cbn [react]; unfold deliver, exec;
    [apply H1|apply H2|apply H3|apply H5|apply H6|apply H7|apply H4|].
  unfold elapseTo.
  eapply staysHidden_trans;
    [apply (fireDue_keeps_hidden l (length (timers p)) (clock p + ms))|].
  intros H. exact H.
Qed.

(** X18. Nothing in the script shows the loader again: once the display
    of an element is [none], it stays [none] through any sequence of
    events. *)
Theorem hidden_stays_hidden (events : list Event) (l : ref) (p : Page) :
  displayOf p l = Lit "none" →
  displayOf (reactAll events p) l = Lit "none".
Proof.
  revert p. induction events as [|e events IH]; intros p Hp; [done|].
  change (reactAll (e :: events) p) with (reactAll events (react e p)).
  apply IH. by apply react_keeps_hidden.
Qed.

(** ** The properties at work on the sample page *)

Lemma classes_are_never_removed_witness :
  "hero-content" ∈ classList (store (reactAll sampleEvents samplePage) 2).
Proof.
  apply (classes_are_never_removed sampleEvents samplePage 2 "hero-content").
  apply list_elem_of_here.
Defined.

Lemma nothing_is_observed_after_ready_witness :
  observed (reactAll [Intersections [mkEntry 4 true]; WindowLoad; Elapse 400; Resize 1]
              (react PageReady samplePage))
  ⊆ observed (react PageReady samplePage).
Proof.
  apply (nothing_is_observed_after_ready
           [Intersections [mkEntry 4 true]; WindowLoad; Elapse 400; Resize 1]
           (react PageReady samplePage)).
  intros H. repeat (apply elem_of_cons in H as [H|H]; [discriminate H|]).
  by apply elem_of_nil in H.
Defined.

Lemma timers_stay_well_formed_witness :
  timersWf (reactAll sampleEvents samplePage) ∧
  length (throttleView (reactAll sampleEvents samplePage)) ≤ 1.
Proof. apply (timers_stay_well_formed sampleEvents samplePage). exact samplePage_timersWf. Defined.

Lemma action_runs_at_most_once_per_resize_witness :
  length (resizeCalls (reactAll sampleEvents samplePage))
  + length (throttleView (reactAll sampleEvents samplePage))
    ≤ length (resizeCalls samplePage) + countResizes sampleEvents.
Proof.
  apply (action_runs_at_most_once_per_resize sampleEvents samplePage).
  - exact samplePage_timersWf.
  - reflexivity.
Defined.

Lemma other_listeners_leave_animation_alone_witness :
  sameAnimation samplePage
    (reactAll [WindowLoad; Click 10; MouseEnter 9; Resize 3; MouseLeave 9] samplePage).
Proof.
  apply (other_listeners_leave_animation_alone
           [WindowLoad; Click 10; MouseEnter 9; Resize 3; MouseLeave 9] samplePage).
  intros e He. repeat (apply elem_of_cons in He as [->|He]; [reflexivity|]).
  by apply elem_of_nil in He.
Defined.

Lemma hidden_stays_hidden_witness :
  displayOf (reactAll [MouseEnter 11; WindowLoad; Intersections [mkEntry 11 true]]
               (reactAll [WindowLoad; Elapse 300] samplePage)) 11
  = Lit "none".
Proof.
  apply (hidden_stays_hidden [MouseEnter 11; WindowLoad; Intersections [mkEntry 11 true]]
           11 (reactAll [WindowLoad; Elapse 300] samplePage)).
  reflexivity.
Defined.

(** What the sample events leave on the sample page. *)
Example sample_events_outcome :
  resizeCalls (reactAll sampleEvents samplePage) = [(350, 2)] ∧
  throttleView (reactAll sampleEvents samplePage) = [] ∧
  animated (reactAll sampleEvents samplePage) 2 = true ∧
  animated (reactAll sampleEvents samplePage) 4 = true ∧
  animated (reactAll sampleEvents samplePage) 5 = false ∧
  displayOf (reactAll sampleEvents samplePage) 11 = Lit "none" ∧
  effects (reactAll sampleEvents samplePage)
    = [ConsoleLog "AI Automation Agency website animations initialized successfully!";
       PreventDefault; ScrollIntoView 7 "smooth" "start"].
Proof. vm_compute. done. Qed.
